(** * go-ipfs: removal of blocks from a filestore node, and the [add] and
    [block rm] commands that guard ingestion and removal

    A shallow embedding of
    - package [filestore]: [RmBlocks], [FilterPinned], [AvailableElsewhere]
      (second document of core/commands/active.go);
    - package [commands]: the [Run] functions of [AddCmd] and [blockRmCmd].

    Go code that mutates stores, sends on a channel and takes the GC lock is
    embedded in a small state-and-panic monad; every effect is appended to a
    trace, so that "what was deleted", "what was sent" and "what happened
    while the lock was held" are functions of the final trace. *)

From stdpp Require Import base list strings gmap.

(** ** Go values *)

(** Go's [error] interface.  The code compares errors with [==] against two
    sentinels, i.e. by identity, so the sentinels are constructors of their
    own and never equal to an error made by [errors.New] or [fmt.Errorf],
    whatever its text. *)
Inductive error : Type :=
| bs_ErrNotFound              (* blockstore.ErrNotFound *)
| ds_ErrNotFound              (* datastore.ErrNotFound *)
| errorString (s : string).   (* errors.New(s), fmt.Errorf(...) *)

#[global] Instance error_eq_dec : EqDecision error.
Proof. solve_decision. Defined.

(** Object identity: what Go's [==] on pointers and interface values sees. *)
Definition ref := positive.

(** What the code uses from outside the files at hand: CIDs, the text of
    the two sentinel errors, the two datastore key prefixes, and the stores
    of the node.  [World] is the content of all stores; [Has] and
    [DeleteBlock] are the methods of the object a reference denotes. *)
Class Extern : Type := {
  Cid : Type;                                   (* cid.Cid, behind its pointer *)
  Cid_String : Cid → string;                    (* the String method of a CID *)
  bs_ErrNotFound_text : string;
  ds_ErrNotFound_text : string;
  FilestorePrefix_String : string;              (* FilestorePrefix.String() *)
  BlockPrefix_String : string;                  (* bs.BlockPrefix.String() *)
  World : Type;
  Has : World → ref → Cid → bool * option error;
  DeleteBlock : World → ref → Cid → World * option error
}.

(** [err.Error()] *)
Definition error_Error `{Extern} (e : error) : string :=
  match e with
  | bs_ErrNotFound => bs_ErrNotFound_text
  | ds_ErrNotFound => ds_ErrNotFound_text
  | errorString s => s
  end.

(** LF, the [\n] of Go string literals. *)
Definition LF : string := String (Ascii.ascii_of_nat 10) EmptyString.

Module filestore.
Section code.
Context `{Extern}.

(** u.RemovedBlock *)
Record RemovedBlock : Type := { Hash : string; Error : string }.

(** u.RmBlocksOpts *)
Record RmBlocksOpts : Type := { Prefix : string; Quiet : bool; Force : bool }.

(** Modelled from the spec: the entries of the answer of the pin set's
    [CheckIfPinned] (type [pin.Pinned], declared outside the files at
    hand): the CID, whether it is pinned, and the human-readable
    reason. *)
Record Pinned : Type := {
  Key : Cid;
  Pinned_Pinned : bool;         (* r.Pinned() *)
  Pinned_String : string        (* r.String() *)
}.

(** pin.Pinner, as far as the code uses it. *)
Record Pinner : Type := {
  CheckIfPinned : list Cid → list Pinned * option error
}.

(** type Filestore struct: the file manager and the plain block store. *)
Record Filestore : Type := { fm : ref; bs : ref }.

(** A channel made by [make(chan interface{}, n)]. *)
Record chan : Type := { chan_cap : nat }.

Inductive event : Type :=
| EvGo                                             (* go func() { ... }() *)
| EvGCLock (lock : ref)                            (* lock.GCLock() *)
| EvUnlock (lock : ref)                            (* unlocker.Unlock() *)
| EvDeleteBlock (blocks : ref) (c : Cid) (err : option error)
| EvSend (out : chan) (v : RemovedBlock)           (* out <- v *)
| EvClose (out : chan).                            (* close(out) *)

Record St : Type := { world : World; trace : list event }.

Inductive outcome (A : Type) : Type :=
| Returned (a : A)
| Panicked (msg : string).
#[global] Arguments Returned {A} a.
#[global] Arguments Panicked {A} msg.

Definition M (A : Type) : Type := St → St * outcome A.

Definition ret {A} (a : A) : M A := λ s, (s, Returned a).

Definition bind {A B} (k : A → M B) (m : M A) : M B :=
  λ s, match m s with
       | (s', Returned a) => k a s'
       | (s', Panicked msg) => (s', Panicked msg)
       end.

#[global] Instance M_ret : MRet M := @ret.
#[global] Instance M_bind : MBind M := @bind.

Definition panic {A} (msg : string) : M A := λ s, (s, Panicked msg).

Definition emit (e : event) : M unit :=
  λ s, ({| world := world s; trace := trace s ++ [e] |}, Returned tt).

(** [defer d] at the head of a function body: [d] runs when the body
    returns and also when it panics. *)
Definition defer {A} (d : M unit) (body : M A) : M A :=
  λ s, let '(s1, r) := body s in (fst (d s1), r).

(** [go f()]: the goroutine is run to its end at the point where it is
    started; a panic in it ends the program. *)
Definition go_ (f : M unit) : M unit := emit EvGo;; f.

Fixpoint for_range {A} (l : list A) (body : A → M unit) : M unit :=
  match l with
  | [] => mret tt
  | x :: l' => body x;; for_range l' body
  end.

Definition send (out : chan) (v : RemovedBlock) : M unit := emit (EvSend out v).
Definition close (out : chan) : M unit := emit (EvClose out).
Definition GCLock (lock : ref) : M ref := emit (EvGCLock lock);; mret lock.
Definition Unlock (unlocker : ref) : M unit := emit (EvUnlock unlocker).

(** [o.Has(c)] *)
Definition call_Has (o : ref) (c : Cid) : M (bool * option error) :=
  λ s, (s, Returned (Has (world s) o c)).

(** [o.DeleteBlock(c)] *)
Definition call_DeleteBlock (o : ref) (c : Cid) : M (option error) :=
  λ s, let '(w, err) := DeleteBlock (world s) o c in
       ({| world := w; trace := trace s ++ [EvDeleteBlock o c err] |},
        Returned err).

Definition AvailableElsewhere (fs : Filestore) (foundIn : ref) (c : Cid) : M bool :=
  if decide (fm fs = foundIn) then
    '(have, _) ← call_Has (bs fs) c; mret have
  else if decide (bs fs = foundIn) then
    '(have, _) ← call_Has (fm fs) c; mret have
  else
    (* programmer error *)
    panic "invalid pointer for foundIn".

(** The [for _, r := range res] loop of [FilterPinned]; [stillOkay] is
    the slice built so far. *)
Fixpoint FilterPinned_range (fs : Filestore) (out : chan) (foundIn : ref)
    (res : list Pinned) (stillOkay : list Cid) : M (list Cid) :=
  match res with
  | [] => mret stillOkay
  | r :: res' =>
      ok ← (if negb (Pinned_Pinned r) then mret true
            else AvailableElsewhere fs foundIn (Key r));
      if ok : bool then
        FilterPinned_range fs out foundIn res' (stillOkay ++ [Key r])
      else
        send out {| Hash := Cid_String (Key r); Error := Pinned_String r |};;
        FilterPinned_range fs out foundIn res' stillOkay
  end.

Definition FilterPinned (fs : Filestore) (pins : Pinner) (out : chan)
    (cids : list Cid) (foundIn : ref) : M (list Cid) :=
  let stillOkay := [] in
  let '(res, err) := CheckIfPinned pins cids in
  match err with
  | Some err =>
      send out {| Hash := "";
                  Error := "pin check failed: " +:+ error_Error err |};;
      mret []
  | None => FilterPinned_range fs out foundIn res stillOkay
  end.

(** The body of the [for _, c := range stillOkay] loop of [RmBlocks]. *)
Definition RmBlocks_body (out : chan) (blocks : ref) (opts : RmBlocksOpts)
    (c : Cid) : M unit :=
  err ← call_DeleteBlock blocks c;
  match err with
  | Some e =>
      if Force opts && (bool_decide (e = bs_ErrNotFound)
                        || bool_decide (e = ds_ErrNotFound)) then
        (* ignore non-existent blocks *)
        mret tt
      else
        send out {| Hash := Cid_String c; Error := error_Error e |}
  | None =>
      if negb (Quiet opts) then
        send out {| Hash := Cid_String c; Error := "" |}
      else mret tt
  end.

(** The [switch opts.Prefix] of [RmBlocks]. *)
Definition RmBlocks_switch (fs : Filestore) (opts : RmBlocksOpts) : option ref :=
  if String.eqb (Prefix opts) FilestorePrefix_String then Some (fm fs)
  else if String.eqb (Prefix opts) BlockPrefix_String then Some (bs fs)
  else None.

Definition RmBlocks (fs : Filestore) (lock : ref) (pins : Pinner)
    (cids : list Cid) (opts : RmBlocksOpts) : M (option chan * option error) :=
  (* make the channel large enough to hold any result to avoid
     blocking while holding the GCLock *)
  let out := {| chan_cap := length cids |} in
  match RmBlocks_switch fs opts with
  | None =>
      mret (None, Some (errorString ("Unknown prefix: " +:+ Prefix opts +:+ LF)))
  | Some blocks =>
      go_ (defer (close out)
             (unlocker ← GCLock lock;
              defer (Unlock unlocker)
                (stillOkay ← FilterPinned fs pins out cids blocks;
                 for_range stillOkay (RmBlocks_body out blocks opts))));;
      mret (Some out, None)
  end.

(** *** Reading a run *)

(** A run of [m] in world [w], started with an empty trace. *)
Definition exec {A} (m : M A) (w : World) : St * outcome A :=
  m {| world := w; trace := [] |}.

Definition events {A} (m : M A) (w : World) : list event := trace (exec m w).1.

(** The values put on the channel, in order. *)
Fixpoint sent (t : list event) : list RemovedBlock :=
  match t with
  | [] => []
  | EvSend _ v :: t' => v :: sent t'
  | _ :: t' => sent t'
  end.

(** The calls of [DeleteBlock], in order, each with what it returned. *)
Fixpoint deleted (t : list event) : list (ref * Cid * option error) :=
  match t with
  | [] => []
  | EvDeleteBlock o c err :: t' => (o, c, err) :: deleted t'
  | _ :: t' => deleted t'
  end.

(** Each call of [DeleteBlock] with the value sent right after it, if the
    next event is a send. *)
Fixpoint per_delete (t : list event)
    : list (Cid * option error * option RemovedBlock) :=
  match t with
  | [] => []
  | EvDeleteBlock _ c err :: t' =>
      (c, err, match t' with EvSend _ v :: _ => Some v | _ => None end)
        :: per_delete t'
  | _ :: t' => per_delete t'
  end.

(** The values sent, except those sent right after a [DeleteBlock] that
    returned nil. *)
Fixpoint failures (after_ok : bool) (t : list event) : list RemovedBlock :=
  match t with
  | [] => []
  | EvDeleteBlock _ _ err :: t' => failures (bool_decide (err = None)) t'
  | EvSend _ v :: t' => (if after_ok then [] else [v]) ++ failures false t'
  | _ :: t' => failures false t'
  end.

(** The number of sends between [GCLock] and [Unlock]. *)
Fixpoint sends_under_lock (held : bool) (t : list event) : nat :=
  match t with
  | [] => 0
  | EvGCLock _ :: t' => sends_under_lock true t'
  | EvUnlock _ :: t' => sends_under_lock false t'
  | EvSend _ _ :: t' => (if held then 1 else 0) + sends_under_lock held t'
  | _ :: t' => sends_under_lock held t'
  end.

(** The sends that find the buffer of their channel full while the lock
    is held, when nothing has been received yet: [buffered] counts the
    values already in the channel. *)
Fixpoint blocked_sends (held : bool) (buffered : nat) (t : list event)
    : list RemovedBlock :=
  match t with
  | [] => []
  | EvGCLock _ :: t' => blocked_sends true buffered t'
  | EvUnlock _ :: t' => blocked_sends false buffered t'
  | EvSend out v :: t' =>
      (if held && (chan_cap out <=? buffered)%nat then [v] else [])
        ++ blocked_sends held (S buffered) t'
  | _ :: t' => blocked_sends held buffered t'
  end.

(** The backend [AvailableElsewhere] asks when the block was found in
    [foundIn]. *)
Definition sibling (fs : Filestore) (foundIn : ref) : ref :=
  if decide (fm fs = foundIn) then bs fs else fm fs.

(** An entry of the pin check may go on to the delete loop: it is not
    pinned, or the sibling backend has the block. *)
Definition deletable (w : World) (fs : Filestore) (foundIn : ref) (r : Pinned) : bool :=
  negb (Pinned_Pinned r) || (Has w (sibling fs foundIn) (Key r)).1.

(** The outcome sent for a pinned entry that may not be deleted. *)
Definition rejection (r : Pinned) : RemovedBlock :=
  {| Hash := Cid_String (Key r); Error := Pinned_String r |}.

(** [foundIn] is one of the two backends of [fs]. *)
Definition known (fs : Filestore) (foundIn : ref) : Prop :=
  fm fs = foundIn ∨ bs fs = foundIn.

(** The trace does not go on with a send. *)
Definition no_send_next (t : list event) : Prop :=
  match t with
  | EvSend _ _ :: _ => False
  | _ => True
  end.

Definition is_NotFound (e : error) : bool :=
  bool_decide (e = bs_ErrNotFound) || bool_decide (e = ds_ErrNotFound).

(** What the delete loop meets: the result of each [DeleteBlock] when the
    CIDs [cs] are deleted from [blocks] one after the other, and the world
    at the end. *)
Fixpoint delete_run (w : World) (blocks : ref) (cs : list Cid)
    : World * list (Cid * option error) :=
  match cs with
  | [] => (w, [])
  | c :: cs' =>
      let '(w1, err) := DeleteBlock w blocks c in
      let '(w2, log) := delete_run w1 blocks cs' in
      (w2, (c, err) :: log)
  end.

(** The outcome one turn of the delete loop sends, if any. *)
Definition body_outcome (opts : RmBlocksOpts) (c : Cid) (err : option error)
    : option RemovedBlock :=
  match err with
  | Some e =>
      if Force opts && is_NotFound e then None
      else Some {| Hash := Cid_String c; Error := error_Error e |}
  | None =>
      if Quiet opts then None
      else Some {| Hash := Cid_String c; Error := "" |}
  end.

Definition body_events (out : chan) (blocks : ref) (opts : RmBlocksOpts)
    (ce : Cid * option error) : list event :=
  EvDeleteBlock blocks ce.1 ce.2 ::
  match body_outcome opts ce.1 ce.2 with
  | Some v => [EvSend out v]
  | None => []
  end.

End code.
End filestore.

(** ** Package commands *)

Module commands.
Import filestore.

(** cmdsutil.ErrorType *)
Inductive ErrorType : Type := ErrNormal | ErrClient.

(** The repo configuration, as far as [AddCmd] reads it. *)
Record Config : Type := { Experimental_FilestoreEnabled : bool }.

(** core.IpfsNode, as far as the two commands read it:
    [n.Repo.Config()]. *)
Record IpfsNode : Type := { Repo_Config : Config + error }.

(** cmds.Request: [req.InvocContext().GetNode()], [req.Arguments()],
    [req.Option(name).Bool()] and [req.Option(name).String()], the last two
    with the three values they return (value, found, error). *)
Record Request : Type := {
  GetNode : IpfsNode + error;
  Arguments : list string;
  Option_Bool : string → bool * bool * option error;
  Option_String : string → string * bool * option error
}.

(** cmds.ResponseEmitter: what [SetError] and [Emit] return. *)
Record ResponseEmitter : Type := {
  SetError : error → ErrorType → option error;
  Emit : option error
}.

(** coreunix.Adder: the fields [AddCmd] sets. *)
Record Adder : Type := {
  Chunker : string;
  Progress : bool;
  Hidden : bool;
  Trickle : bool;
  Wrap : bool;
  Pin : bool;
  Silent : bool;
  RawLeaves : bool;
  NoCopy : bool
}.

(** What the commands reach outside the files at hand. *)
Class CmdExtern `{Extern} : Type := {
  cid_Decode : string → Cid + error;                       (* cid.Decode *)
  util_RmBlocks : World → list Cid → RmBlocksOpts → World * option error;
  core_NewNode : IpfsNode + error;                         (* core.NewNode *)
  coreunix_NewAdder : option error;                        (* coreunix.NewAdder *)
  mfs_NewRoot : option error                               (* mfs.NewRoot *)
}.

Section code.
Context `{CmdExtern}.

Inductive cmd_event : Type :=
| CmdSetError (err : error) (code : ErrorType)     (* re.SetError(err, code) *)
| CmdLogError (err : option error)                 (* log.Error(err) *)
| CmdRmBlocks (cids : list Cid) (opts : RmBlocksOpts)   (* util.RmBlocks(...) *)
| CmdEmitChan                                      (* re.Emit(ch) *)
| CmdAdd (fileAdder : Adder) (hash : bool).        (* go addAllAndPin(req.Files()) *)

(** The recurring
    [err2 := re.SetError(err, code); if err2 != nil { log.Error(logged) }; return]. *)
Definition set_error (re : ResponseEmitter) (err : error) (code : ErrorType)
    (logged : option error) : list cmd_event :=
  CmdSetError err code ::
  match SetError re err code with
  | Some _ => [CmdLogError logged]
  | None => []
  end.

Definition quietOptionName : string := "quiet".
Definition quieterOptionName : string := "quieter".
Definition silentOptionName : string := "silent".
Definition progressOptionName : string := "progress".
Definition trickleOptionName : string := "trickle".
Definition wrapOptionName : string := "wrap-with-directory".
Definition hiddenOptionName : string := "hidden".
Definition onlyHashOptionName : string := "only-hash".
Definition chunkerOptionName : string := "chunker".
Definition pinOptionName : string := "pin".
Definition rawLeavesOptionName : string := "raw-leaves".
Definition noCopyOptionName : string := "nocopy".
Definition fstoreCacheOptionName : string := "fscache".

(** [AddCmd.Run], up to the [go] statement that starts the walk over the
    input files; the walk itself ([coreunix.Adder]) and the loop that
    forwards its output lie outside the files at hand.  The choice of the
    block store and of the exchange ([fscache], [local]) is left out: it
    sets no error and no field of the adder. *)
Definition AddCmd_Run (req : Request) (re : ResponseEmitter) : list cmd_event :=
  match GetNode req with
  | inr err => set_error re err ErrNormal (Some err)
  | inl n =>
  match Repo_Config n with
  | inr err => set_error re err ErrNormal (Some err)
  | inl cfg =>
    let '(progress, _, _) := Option_Bool req progressOptionName in
    let '(trickle, _, _) := Option_Bool req trickleOptionName in
    let '(wrap, _, _) := Option_Bool req wrapOptionName in
    let '(hash, _, _) := Option_Bool req onlyHashOptionName in
    let '(hidden, _, _) := Option_Bool req hiddenOptionName in
    let '(silent, _, _) := Option_Bool req silentOptionName in
    let '(chunker, _, _) := Option_String req chunkerOptionName in
    let '(dopin, _, _) := Option_Bool req pinOptionName in
    let '(rawblks, rbset, _) := Option_Bool req rawLeavesOptionName in
    let '(nocopy, _, _) := Option_Bool req noCopyOptionName in
    if nocopy && negb (Experimental_FilestoreEnabled cfg) then
      set_error re (errorString "filestore is not enabled, see https://git.io/vy4XN")
        ErrClient None
    else
    let rawblks := if nocopy && negb rbset then true else rawblks in
    if nocopy && negb rawblks then
      set_error re
        (errorString "nocopy option requires '--raw-leaves' to be enabled as well")
        ErrNormal None
    else
    match (if hash then core_NewNode else inl n) with
    | inr err => set_error re err ErrNormal (Some err)
    | inl n =>
    match coreunix_NewAdder with
    | Some err => set_error re err ErrNormal (Some err)
    | None =>
      let fileAdder :=
        {| Chunker := chunker; Progress := progress; Hidden := hidden;
           Trickle := trickle; Wrap := wrap; Pin := dopin; Silent := silent;
           RawLeaves := rawblks; NoCopy := nocopy |} in
      match (if hash then mfs_NewRoot else None) with
      | Some err => set_error re err ErrNormal (Some err)
      | None => [CmdAdd fileAdder hash]
      end
    end
    end
  end
  end.

(** The [for _, hash := range hashes] loop of [blockRmCmd.Run]: the CIDs
    decoded so far are in [cids]; the first argument that does not decode
    ends the loop. *)
Fixpoint decode_range (hashes : list string) (cids : list Cid)
    : string * error + list Cid :=
  match hashes with
  | [] => inr cids
  | hash :: hashes' =>
      match cid_Decode hash with
      | inr err => inl (hash, err)
      | inl c => decode_range hashes' (cids ++ [c])
      end
  end.

(** [blockRmCmd.Run]: the world after the call and what the command did. *)
Definition blockRmCmd_Run (req : Request) (re : ResponseEmitter) (w : World)
    : World * list cmd_event :=
  match GetNode req with
  | inr err => (w, set_error re err ErrNormal (Some err))
  | inl n =>
    let hashes := Arguments req in
    let '(force, _, _) := Option_Bool req "force" in
    let '(quiet, _, _) := Option_Bool req "quiet" in
    match decode_range hashes [] with
    | inl (hash, err) =>
        let err := errorString ("invalid content id: " +:+ hash +:+ " ("
                                +:+ error_Error err +:+ ")") in
        (w, set_error re err ErrNormal (Some err))
    | inr cids =>
        let opts := {| Prefix := ""; Quiet := quiet; Force := force |} in
        let '(w', err) := util_RmBlocks w cids opts in
        match err with
        | Some err =>
            (w', CmdRmBlocks cids opts :: set_error re err ErrNormal (Some err))
        | None =>
            (w', CmdRmBlocks cids opts :: CmdEmitChan ::
                 match Emit re with
                 | Some err => [CmdLogError (Some err)]
                 | None => []
                 end)
        end
    end
  end.

End code.
End commands.

(** ** A node to run the code on *)

Module mem.
Import filestore commands.

(** Modelled from the spec: the Block Store interface ([Has], [Delete],
    whose error tells "not found" from other I/O failures).  A store is the
    set of CIDs it holds; a store marked [broken] fails every delete with an
    I/O error.  CIDs are given by their string form. *)
Record store : Type := { blocks : gset string; broken : bool }.

Definition world : Type := gmap ref store.

Definition has (w : world) (o : ref) (c : string) : bool * option error :=
  match w !! o with
  | Some st => (bool_decide (c ∈ blocks st), None)
  | None => (false, None)
  end.

Definition delete_block (w : world) (o : ref) (c : string) : world * option error :=
  match w !! o with
  | Some st =>
      if broken st then (w, Some (errorString "input/output error"))
      else if bool_decide (c ∈ blocks st) then
        (<[o := {| blocks := blocks st ∖ {[c]}; broken := false |}]> w, None)
      else (w, Some bs_ErrNotFound)
  | None => (w, Some ds_ErrNotFound)
  end.

Definition extern : Extern :=
  {| Cid := string;
     Cid_String := id;
     bs_ErrNotFound_text := "blockstore: block not found";
     ds_ErrNotFound_text := "datastore: key not found";
     FilestorePrefix_String := "/filestore";
     BlockPrefix_String := "/blocks";
     World := world;
     Has := has;
     DeleteBlock := delete_block |}.

(** Modelled from the spec: the Pin Set's [CheckIfPinned], one entry per
    requested CID, in the order of the request; [pinned] gives the reason
    of every pinned CID. *)
Definition pinner (pinned : gmap string string) : @Pinner extern :=
  {| CheckIfPinned := λ cids : list (@Cid extern),
       (map (λ c : @Cid extern,
               match pinned !! (c : string) with
               | Some reason => @Build_Pinned extern c true reason
               | None => @Build_Pinned extern c false "not pinned"
               end) cids, None) |}.

(** A pin set whose check fails. *)
Definition failing_pinner (err : error) : @Pinner extern :=
  {| CheckIfPinned := λ _, ([], Some err) |}.

(** File manager at 1, plain block store at 2, GC lock at 3. *)
Definition fs : Filestore := {| fm := 1%positive; bs := 2%positive |}.
Definition lock : ref := 3%positive.

Definition node (in_fm in_bs : list string) : world :=
  {[ 1%positive := {| blocks := list_to_set in_fm; broken := false |};
     2%positive := {| blocks := list_to_set in_bs; broken := false |} ]}.

(** The same node with a file manager that fails every delete. *)
Definition node_broken_fm (in_fm in_bs : list string) : world :=
  {[ 1%positive := {| blocks := list_to_set in_fm; broken := true |};
     2%positive := {| blocks := list_to_set in_bs; broken := false |} ]}.

Definition opts (prefix : string) (quiet force : bool) : RmBlocksOpts :=
  {| Prefix := prefix; Quiet := quiet; Force := force |}.

(** The rest of the node, for the commands: strings that start with "Qm"
    decode as CIDs, [util.RmBlocks] deletes from the plain block store
    without asking anything, and nodes, adders and MFS roots are made
    without error. *)
Definition decode (hash : string) : string + error :=
  if String.prefix "Qm" hash then inl hash
  else inr (errorString "selected encoding not supported").

Definition config : Config := {| Experimental_FilestoreEnabled := true |}.
Definition ipfs_node : IpfsNode := {| Repo_Config := inl config |}.

Definition cmd_extern : @CmdExtern extern :=
  {| cid_Decode := decode : string → @Cid extern + error;
     util_RmBlocks := λ (w : @World extern) (cids : list (@Cid extern)) _,
       (foldl (λ w c, (delete_block w 2%positive c).1) w cids, None);
     core_NewNode := inl ipfs_node;
     coreunix_NewAdder := None;
     mfs_NewRoot := None |}.

Definition emitter : ResponseEmitter :=
  {| SetError := λ _ _, None; Emit := None |}.

(** A request: the arguments and the boolean options given on the command
    line; [pin] is on unless given, every other option is off unless
    given. *)
Definition request (args : list string) (given : list (string * bool)) : Request :=
  {| GetNode := inl ipfs_node;
     Arguments := args;
     Option_Bool := λ name,
       match list_find (λ o, o.1 = name) given with
       | Some (_, (_, b)) => (b, true, None)
       | None => (bool_decide (name = "pin"), false, None)
       end;
     Option_String := λ _, ("", false, None) |}.

End mem.


(** ** Package commands: the block commands *)

Module block_cmd.
Import commands.

Section code.
Context `{CmdExtern}.

(** blocks.Block, by its two methods. *)
Record Block : Type := { Block_Cid : Cid; RawData : list Byte.byte }.

(** cid.Prefix; the codecs are the three [blockPutCmd] chooses from. *)
Inductive Codec : Type := cid_DagProtobuf | cid_DagCBOR | cid_Raw.

Record Prefix : Type := {
  Version : Z;
  Codec_ : Codec;
  MhType : Z;
  MhLength : Z
}.

End code.

(** What the block commands reach outside the files at hand:
    [n.Blocks.GetBlock], [n.Blocks.AddBlock], the table [mh.Names],
    [pref.Sum] and [blocks.NewBlockWithCid]. *)
Class BlockExtern `{CmdExtern} : Type := {
  Blocks_GetBlock : World → Cid → World * (Block + error);
  Blocks_AddBlock : World → Block → World * (Cid + error);
  mh_Names : string → option Z;
  Prefix_Sum : Prefix → list Byte.byte → Cid + error;
  blocks_NewBlockWithCid : list Byte.byte → Cid → Block + error
}.

Section code.
Context `{BlockExtern}.

(** type BlockStat struct *)
Record BlockStat : Type := { Key : string; Size : Z }.

Inductive block_event : Type :=
| BlkSetError (err : error) (code : ErrorType)    (* re.SetError(err, code) *)
| BlkLogError (err : option error)                (* log.Error(err) *)
| BlkEmitStat (bs : BlockStat)                    (* re.Emit(&BlockStat{...}) *)
| BlkEmitData (data : list Byte.byte)             (* re.Emit(bytes.NewReader(...)) *)
| BlkAddBlock (b : Block).                        (* n.Blocks.AddBlock(b) *)

(** [err2 := re.SetError(err, code); if err2 != nil { log.Error(err) }; return] *)
Definition blk_set_error (re : ResponseEmitter) (err : error) (code : ErrorType)
    : list block_event :=
  BlkSetError err code ::
  match SetError re err code with
  | Some _ => [BlkLogError (Some err)]
  | None => []
  end.

(** [err = re.Emit(v); if err != nil { log.Error(err) }] *)
Definition blk_emit (re : ResponseEmitter) (ev : block_event) : list block_event :=
  ev :: match Emit re with
        | Some err => [BlkLogError (Some err)]
        | None => []
        end.

Definition getBlockForKey (req : Request) (skey : string) (w : World)
    : World * (Block + error) :=
  if (String.length skey =? 0)%nat then
    (w, inr (errorString "zero length cid invalid"))
  else
    match GetNode req with
    | inr err => (w, inr err)
    | inl n =>
        match cid_Decode skey with
        | inr err => (w, inr err)
        | inl c =>
            match Blocks_GetBlock w c with
            | (w', inr err) => (w', inr err)
            | (w', inl b) => (w', inl b)
            end
        end
    end.

(** [req.Arguments()[0]]: indexing an empty slice panics. *)
Definition Arguments_0 (req : Request) : filestore.outcome string :=
  match Arguments req with
  | [] => filestore.Panicked "runtime error: index out of range"
  | skey :: _ => filestore.Returned skey
  end.

(** [blockStatCmd.Run] *)
Definition blockStatCmd_Run (req : Request) (re : ResponseEmitter) (w : World)
    : World * filestore.outcome (list block_event) :=
  match Arguments_0 req with
  | filestore.Panicked msg => (w, filestore.Panicked msg)
  | filestore.Returned skey =>
      match getBlockForKey req skey w with
      | (w', inr err) => (w', filestore.Returned (blk_set_error re err ErrNormal))
      | (w', inl b) =>
          (w', filestore.Returned
                 (blk_emit re (BlkEmitStat
                    {| Key := Cid_String (Block_Cid b);
                       Size := Z.of_nat (length (RawData b)) |})))
      end
  end.

(** [blockGetCmd.Run] *)
Definition blockGetCmd_Run (req : Request) (re : ResponseEmitter) (w : World)
    : World * filestore.outcome (list block_event) :=
  match Arguments_0 req with
  | filestore.Panicked msg => (w, filestore.Panicked msg)
  | filestore.Returned skey =>
      match getBlockForKey req skey w with
      | (w', inr err) => (w', filestore.Returned (blk_set_error re err ErrNormal))
      | (w', inl b) =>
          (w', filestore.Returned (blk_emit re (BlkEmitData (RawData b))))
      end
  end.

(** What [blockPutCmd.Run] reads besides the request: the file
    [req.Files().NextFile()] gives, what [ioutil.ReadAll] and [file.Close]
    return for it, and [req.Option("mhlen").Int()]. *)
Record PutInput : Type := {
  NextFile : option error;
  ReadAll : list Byte.byte * option error;
  file_Close : option error;
  Option_mhlen : Z * bool * option error
}.

(** The [switch format] of [blockPutCmd.Run], which starts from
    [pref.Version = 1]: the version and the codec, or nothing for the
    default case. *)
Definition format_switch (format : string) : option (Z * Codec) :=
  if String.eqb format "cbor" then Some (1%Z, cid_DagCBOR)
  else if String.eqb format "protobuf" then Some (1%Z, cid_DagProtobuf)
  else if String.eqb format "raw" then Some (1%Z, cid_Raw)
  else if String.eqb format "v0" then Some (0%Z, cid_DagProtobuf)
  else None.

(** [blockPutCmd.Run] *)
Definition blockPutCmd_Run (req : Request) (inp : PutInput) (re : ResponseEmitter)
    (w : World) : World * list block_event :=
  match GetNode req with
  | inr err => (w, blk_set_error re err ErrNormal)
  | inl n =>
  match NextFile inp with
  | Some err => (w, blk_set_error re err ErrNormal)
  | None =>
  match ReadAll inp with
  | (_, Some err) => (w, blk_set_error re err ErrNormal)
  | (data, None) =>
  match file_Close inp with
  | Some err => (w, blk_set_error re err ErrNormal)
  | None =>
    let '(format, _, _) := Option_String req "format" in
    match format_switch format with
    | None =>
        (w, blk_set_error re
              (errorString ("unrecognized format: " +:+ format)) ErrNormal)
    | Some (version, codec) =>
    let '(mhtype, _, _) := Option_String req "mhtype" in
    match mh_Names mhtype with
    | None =>
        (w, blk_set_error re
              (errorString ("unrecognized multihash function: " +:+ mhtype))
              ErrNormal)
    | Some mhtval =>
    match Option_mhlen inp with
    | (_, _, Some err) => (w, blk_set_error re err ErrNormal)
    | (mhlen, _, None) =>
      let pref := {| Version := version; Codec_ := codec;
                     MhType := mhtval; MhLength := mhlen |} in
      match Prefix_Sum pref data with
      | inr err => (w, blk_set_error re err ErrNormal)
      | inl bcid =>
      match blocks_NewBlockWithCid data bcid with
      | inr err => (w, blk_set_error re err ErrNormal)
      | inl b =>
      match Blocks_AddBlock w b with
      | (w', inr err) => (w', BlkAddBlock b :: blk_set_error re err ErrNormal)
      | (w', inl k) =>
          (w', BlkAddBlock b ::
               blk_emit re (BlkEmitStat {| Key := Cid_String k;
                                           Size := Z.of_nat (length data) |}))
      end
      end
      end
    end
    end
    end
  end
  end
  end
  end.

(** *** The CLI side of [block rm] *)

(** cmdsutil.Error *)
Record cmdsutil_Error : Type := { Message : string; Code : ErrorType }.

(** What [res.Next()] returns when it returns an error. *)
Inductive next_error : Type :=
| io_EOF
| cmds_ErrRcvdError
| next_cmdsutil_Error (e : cmdsutil_Error)   (* an error that is a cmdsutil.Error *)
| next_other (err : error).                  (* any other error *)

(** What [res.Next()] returns when it returns a value: a removed block or
    a value of another type, given by the name of the type. *)
Inductive next_value : Type :=
| is_RemovedBlock (r : filestore.RemovedBlock)
| is_not_RemovedBlock (type : string).

(** The response the CLI reads: the values the calls of [res.Next()]
    return one after the other, the error it returns once they are used
    up, and [res.Error()]. *)
Record Response : Type := {
  Next_values : list next_value;
  Next_error : next_error;
  res_Error : cmdsutil_Error
}.

Inductive cli_event : Type :=
| Stdout (s : string)                                  (* fmt.Fprintf(os.Stdout, ...) *)
| Stderr (s : string)                                  (* fmt.Fprintf(os.Stderr, ...) *)
| CliSetError (v : string + error) (code : ErrorType)  (* re.SetError(v, code) *)
| CliLogError (err : error)                            (* log.Error(err) *)
| CliLogTypeErr (type : string)                        (* log.Error(e.New(e.TypeErr(r, v))) *)
| CliClose.                                            (* re.Close() *)

(** The emitter of the CLI: what [re.SetError] returns. *)
Record CliEmitter : Type := {
  cli_SetError : string + error → ErrorType → option error
}.

(** The [for] loop of the goroutine of [blockRmCmd.PostRun], over the
    values still to come.  The result says how the loop ends: [Some
    someFailed] when it is left by [break], [None] when the goroutine
    returns from inside it. *)
Fixpoint blockRm_PostRun_for (re : CliEmitter) (res : Response)
    (values : list next_value) (someFailed : bool)
    : list cli_event * option bool :=
  match values with
  | [] =>
      match Next_error res with
      | io_EOF => ([], Some someFailed)
      | cmds_ErrRcvdError =>
          let e := res_Error res in
          (CliSetError (inl (Message e)) (Code e) ::
           match cli_SetError re (inl (Message e)) (Code e) with
           | Some err => [CliLogError err]
           | None => []
           end, None)
      | next_cmdsutil_Error e =>
          (CliSetError (inl (Message e)) (Code e) ::
           match cli_SetError re (inl (Message e)) (Code e) with
           | Some err => [CliLogError err]
           | None => []
           end, None)
      | next_other err =>
          (CliSetError (inr err) ErrNormal ::
           match cli_SetError re (inr err) ErrNormal with
           | Some _ => [CliLogError err]
           | None => []
           end, None)
      end
  | is_not_RemovedBlock type :: _ => ([CliLogTypeErr type], Some someFailed)
  | is_RemovedBlock r :: values' =>
      if String.eqb (filestore.Hash r) "" && negb (String.eqb (filestore.Error r) "")
      then
        ([Stderr ("aborted: " +:+ filestore.Error r +:+ LF)], Some true)
      else if negb (String.eqb (filestore.Error r) "") then
        let '(evs, how) := blockRm_PostRun_for re res values' true in
        (Stderr ("cannot remove " +:+ filestore.Hash r +:+ ": "
                 +:+ filestore.Error r +:+ LF) :: evs, how)
      else
        let '(evs, how) := blockRm_PostRun_for re res values' someFailed in
        (Stdout ("removed " +:+ filestore.Hash r +:+ LF) :: evs, how)
  end.

(** The goroutine of [blockRmCmd.PostRun] for the CLI. *)
Definition blockRm_PostRun (re : CliEmitter) (res : Response) : list cli_event :=
  let '(evs, how) := blockRm_PostRun_for re res (Next_values res) false in
  evs ++
  match how with
  | Some true =>
      CliSetError (inl "some blocks not removed") ErrNormal ::
      match cli_SetError re (inl "some blocks not removed") ErrNormal with
      | Some err => [CliLogError err]
      | None => []
      end
  | _ => []
  end ++ [CliClose].

(** *** Reading what the CLI did *)

(** An outcome that makes the loop give up: no hash, and an error. *)
Definition aborts (r : filestore.RemovedBlock) : bool :=
  String.eqb (filestore.Hash r) "" && negb (String.eqb (filestore.Error r) "").

(** An outcome that carries an error. *)
Definition failed (r : filestore.RemovedBlock) : bool :=
  negb (String.eqb (filestore.Error r) "").

(** The line printed for an outcome that does not make the loop give up:
    on standard output for a removed block, on standard error for a
    failure. *)
Definition report (r : filestore.RemovedBlock) : cli_event :=
  if failed r then
    Stderr ("cannot remove " +:+ filestore.Hash r +:+ ": "
            +:+ filestore.Error r +:+ LF)
  else Stdout ("removed " +:+ filestore.Hash r +:+ LF).

(** Setting the error [v], and logging when that fails. *)
Definition cli_set_error (re : CliEmitter) (v : string + error) (code : ErrorType)
    (logged : error → error) : list cli_event :=
  CliSetError v code ::
  match cli_SetError re v code with
  | Some err => [CliLogError (logged err)]
  | None => []
  end.

Definition some_not_removed (re : CliEmitter) : list cli_event :=
  cli_set_error re (inl "some blocks not removed") ErrNormal id.

(** How an error of the stream other than [io.EOF] is passed on. *)
Definition passed_on (re : CliEmitter) (res : Response) : list cli_event :=
  match Next_error res with
  | io_EOF => []
  | cmds_ErrRcvdError =>
      cli_set_error re (inl (Message (res_Error res))) (Code (res_Error res)) id
  | next_cmdsutil_Error e => cli_set_error re (inl (Message e)) (Code e) id
  | next_other err => cli_set_error re (inr err) ErrNormal (λ _, err)
  end.

End code.
End block_cmd.

(** ** Package commands: cat *)

Module cat_cmd.
Import commands.

(** What [CatCmd] reaches outside the files at hand: the two methods of
    the node it calls, [coreunix.Cat], and the size of the reader that
    gives. *)
Class CatExtern `{Extern} : Type := {
  Reader : Type;
  Reader_Size : Reader → Z;                               (* read.Size() *)
  coreunix_Cat : IpfsNode → string → Reader + error;
  OnlineMode : IpfsNode → bool;
  SetupOfflineRouting : IpfsNode → option error
}.

Section code.
Context `{CatExtern}.

(** Conversion to [uint64], and addition in it. *)
Definition uint64 (z : Z) : Z := z mod 2 ^ 64.

Inductive cat_event : Type :=
| CatOpen (fpath : string)                       (* coreunix.Cat(ctx, node, fpath) *)
| CatSetupOfflineRouting                         (* node.SetupOfflineRouting() *)
| CatSetError (err : error) (code : ErrorType)   (* re.SetError(err, code) *)
| CatLogError (err : option error)               (* log.Error(err) *)
| CatSetLength (length : Z)                      (* re.SetLength(length) *)
| CatEmit (readers : list Reader)                (* re.Emit(io.MultiReader(readers...)) *)
| CatClose.                                      (* re.Close() *)

(** The [for _, fpath := range paths] loop of [cat], from the readers and
    the length gathered so far; the first component lists the calls of
    [coreunix.Cat]. *)
Fixpoint cat_range (node : IpfsNode) (paths : list string)
    (readers : list Reader) (length : Z)
    : list cat_event * (list Reader * Z * option error) :=
  match paths with
  | [] => ([], (readers, length, None))
  | fpath :: paths' =>
      match coreunix_Cat node fpath with
      | inr err => ([CatOpen fpath], ([], 0%Z, Some err))
      | inl read =>
          let '(evs, r) :=
            cat_range node paths' (readers ++ [read])
              (uint64 (length + uint64 (Reader_Size read))) in
          (CatOpen fpath :: evs, r)
      end
  end.

Definition cat (node : IpfsNode) (paths : list string)
    : list cat_event * (list Reader * Z * option error) :=
  cat_range node paths [] (uint64 0).

Definition cat_set_error (re : ResponseEmitter) (err : error) (code : ErrorType)
    : list cat_event :=
  CatSetError err code ::
  match SetError re err code with
  | Some _ => [CatLogError (Some err)]
  | None => []
  end.

(** [CatCmd.Run] *)
Definition CatCmd_Run (req : Request) (re : ResponseEmitter) : list cat_event :=
  match GetNode req with
  | inr err => cat_set_error re err ErrNormal
  | inl node =>
      match (if negb (OnlineMode node) then
               match SetupOfflineRouting node with
               | Some err => ([CatSetupOfflineRouting], Some err)
               | None => ([CatSetupOfflineRouting], None)
               end
             else ([], None)) with
      | (evs0, Some err) => evs0 ++ cat_set_error re err ErrNormal
      | (evs0, None) =>
          let '(evs, (readers, length, err)) := cat node (Arguments req) in
          match err with
          | Some err => evs0 ++ evs ++ cat_set_error re err ErrNormal
          | None =>
              evs0 ++ evs ++
              [CatSetLength length; CatEmit readers] ++
              match Emit re with
              | Some err =>
                  CatSetError err ErrNormal ::
                  match SetError re err ErrNormal with
                  | Some err' => [CatLogError (Some err')]
                  | None => []
                  end
              | None => []
              end ++ [CatClose]
          end
      end
  end.

(** *** The CLI side of cat *)

(** show progress bar for outputs > 8MiB *)
Definition progressBarMinSize : Z := 1024 * 1024 * 8.

(** What [res.Next()] returns to [CatCmd.PostRun]: a reader, a value of
    another type (given by the name of the type) or an error. *)
Inductive cat_next : Type :=
| next_Reader (r : Reader)
| next_not_Reader (type : string)
| next_ErrRcvdError                 (* cmds.ErrRcvdError *)
| next_err (err : error).           (* any other error *)

(** The response [CatCmd.PostRun] reads: [res.Length()], what
    [cmds.Copy(re, res)] returns, what the first [res.Next()] returns, and
    the message and code of [res.Error()]. *)
Record CatResponse : Type := {
  res_Length : Z;
  cmds_Copy : option error;
  res_Next : cat_next;
  res_Error_Message : string;
  res_Error_Code : ErrorType
}.

Inductive cat_cli_event : Type :=
| CliCopy                                   (* cmds.Copy(re, res) *)
| CliSetError_err (err : error) (code : ErrorType)   (* re.SetError(err, code) *)
| CliSetError_msg (msg : string) (code : ErrorType)  (* re.SetError(msg, code) *)
| CliSetError_res (code : ErrorType)        (* re.SetError(res.Error(), code) *)
| CliLogError (err : option error)          (* log.Error(err), err nil or an error *)
| CliLogErrRcvdError                        (* log.Error(cmds.ErrRcvdError) *)
| CliBarStart                               (* bar.Start() *)
| CliEmit (r : Reader)                      (* re.Emit(reader) *)
| CliClose.                                 (* re.Close() *)

(** The emitter of the CLI: whether [re.SetError] fails, and what
    [re.Emit] returns. *)
Record CatCliEmitter : Type := {
  cli_SetError_fails : bool;
  cli_Emit : option error
}.

(** The goroutine of [CatCmd.PostRun] for the CLI. *)
Definition CatCmd_PostRun (re : CatCliEmitter) (res : CatResponse)
    : list cat_cli_event :=
  if (0 <? res_Length res)%Z && (res_Length res <? progressBarMinSize)%Z then
    CliCopy ::
    match cmds_Copy res with
    | Some err =>
        CliSetError_err err ErrNormal ::
        (if cli_SetError_fails re then [CliLogError (Some err)] else [])
    | None => []
    end
  else
    (* Copy closes by itself, so we must not do this before *)
    match res_Next res with
    | next_ErrRcvdError =>
        CliSetError_msg (res_Error_Message res) (res_Error_Code res) ::
        (if cli_SetError_fails re then [CliLogErrRcvdError] else [])
    | next_err err =>
        CliSetError_res ErrNormal ::
        (if cli_SetError_fails re then [CliLogError (Some err)] else [])
    | next_not_Reader type =>
        CliSetError_msg ("expected io.Reader, not " +:+ type) ErrNormal ::
        (if cli_SetError_fails re then [CliLogError None] else [])
    | next_Reader r =>
        CliBarStart :: CliEmit r ::
        match cli_Emit re with
        | Some err => [CliLogError (Some err)]
        | None => []
        end
    end ++ [CliClose].

(** The sizes of the readers added up, as integers. *)
Definition total_size (readers : list Reader) : Z :=
  foldr (λ read total, (Reader_Size read + total)%Z) 0%Z readers.

(** [coreunix.Cat] opens every path of [paths], and gives [readers]. *)
Definition all_open (node : IpfsNode) (paths : list string) (readers : list Reader)
    : Prop :=
  Forall2 (λ fpath read, coreunix_Cat node fpath = inl read) paths readers.

End code.
End cat_cmd.

(** ** Package commands: the helper of the response test *)

Module response_test.

(** [strings.Replace(s, old, new, -1)] for a non-empty [old]: every
    occurrence of [old], from the left and without overlap, is replaced by
    [new].  [skip] counts the characters of an occurrence still to be
    passed over. *)
Fixpoint strings_Replace_from (old new : string) (skip : nat) (s : string) : string :=
  match s with
  | EmptyString => EmptyString
  | String c s' =>
      match skip with
      | S skip' => strings_Replace_from old new skip' s'
      | O =>
          if String.prefix old s then
            new +:+ strings_Replace_from old new (String.length old - 1) s'
          else String c (strings_Replace_from old new 0 s')
      end
  end.

Definition strings_Replace_all (s old new : string) : string :=
  strings_Replace_from old new 0 s.

Definition TAB : string := String (Ascii.ascii_of_nat 9) EmptyString.
Definition CR : string := String (Ascii.ascii_of_nat 13) EmptyString.

Definition removeWhitespace (input : string) : string :=
  let input := strings_Replace_all input " " "" in
  let input := strings_Replace_all input TAB "" in
  let input := strings_Replace_all input LF "" in
  strings_Replace_all input CR "".

(** The four characters [removeWhitespace] takes out. *)
Definition is_whitespace (c : Ascii.ascii) : bool :=
  Ascii.eqb c (Ascii.ascii_of_nat 32) || Ascii.eqb c (Ascii.ascii_of_nat 9)
  || Ascii.eqb c (Ascii.ascii_of_nat 10) || Ascii.eqb c (Ascii.ascii_of_nat 13).

(** The characters of [s] that [f] accepts, in their order. *)
Fixpoint keep (f : Ascii.ascii → bool) (s : string) : string :=
  match s with
  | EmptyString => EmptyString
  | String c s' => if f c then String c (keep f s') else keep f s'
  end.

(** A string without its whitespace. *)
Definition without_whitespace (s : string) : string :=
  keep (λ c, negb (is_whitespace c)) s.

End response_test.

(** ** Package commands: before and after [AddCmd.Run] *)

Module add_cli.
Import commands.

Section code.
Context `{Extern}.

(** [req.SetOption(name, value)] for a boolean option: from then on
    [req.Option(name).Bool()] finds the value. *)
Definition SetOption (req : Request) (name : string) (value : bool) : Request :=
  {| GetNode := GetNode req;
     Arguments := Arguments req;
     Option_Bool := λ n, if String.eqb n name then (value, true, None)
                         else Option_Bool req n;
     Option_String := Option_String req |}.

Inductive prerun_event : Type :=
| LogWarning (msg : string)        (* log.Warning, log.Warningf *)
| MakeSizeChan                     (* req.Values()["size"] = make(chan int64, 1) *)
| SendSize (size : Z).             (* sizeCh <- size *)

(** [AddCmd.PreRun].  [sizeFile] is what the input files give when asked
    for their size: nothing when they are no [files.SizeFile], else what
    [sizeFile.Size()] returns.  The result is the request as [PreRun]
    leaves it, what it did, and the error it returns. *)
Definition AddCmd_PreRun (req : Request) (sizeFile : option (Z + error))
    : Request * list prerun_event * option error :=
  let '(quiet, _, _) := Option_Bool req quietOptionName in
  let '(quieter, _, _) := Option_Bool req quieterOptionName in
  let quiet := quiet || quieter in
  let '(silent, _, _) := Option_Bool req silentOptionName in
  if quiet || silent then (req, [], None)
  else
    (* ipfs cli progress bar defaults to true unless quiet or silent is used *)
    let '(_, found, _) := Option_Bool req progressOptionName in
    let req := if negb found then SetOption req progressOptionName true else req in
    match sizeFile with
    | None =>
        (* we don't need to error, the progress bar just won't know how big
           the files are *)
        (req, [LogWarning "cannnot determine size of input file"], None)
    | Some size =>
        (req,
         MakeSizeChan ::
         match size with
         | inr err => [LogWarning ("error getting files size: " +:+ error_Error err)]
         | inl size => [SendSize size]
         end, None)
    end.

(** coreunix.AddedObject *)
Record AddedObject : Type := { Name : string; Hash : string; Bytes : Z }.

(** Conversion to [int64]. *)
Definition int64 (z : Z) : Z := (z + 2 ^ 63) mod 2 ^ 64 - 2 ^ 63.

(** What one turn of the [select] of [progressBar] receives. *)
Inductive select_event : Type :=
| SelOut (output : AddedObject)    (* a value from outChan that is an AddedObject *)
| SelOutOther                      (* a value from outChan of another type *)
| SelClosed                        (* outChan is closed *)
| SelSize (size : Z)               (* a value from sizeChan *)
| SelDone (err : error).           (* req.Context() is done; err is its Err() *)

Inductive bar_event : Type :=
| Stdout (s : string)                             (* fmt.Fprint...(os.Stdout, ...) *)
| Stderr (s : string)                             (* fmt.Fprintf(os.Stderr, ...) *)
| BarStart                                        (* bar.Start() *)
| BarAdd64 (add : Z)                              (* bar.Add64(add) *)
| BarUpdate                                       (* bar.Update() *)
| BarTotal (size : Z)                             (* bar.Total = size, and the Show flags *)
| BarSetError (err : error) (code : ErrorType)    (* re.SetError(err, code) *)
| BarLogError (err err2 : error)                  (* log.Error(err, err2) *)
| CloseWait.                                      (* close(wait) *)

(** How a run of [progressBar] ends: it returns, it waits in [select]
    for ever, or the type assertion on a value panics. *)
Inductive ending : Type := Returns | Waits | Panics.

(** The variables of [progressBar], and the position of the bar
    ([pb.current], which [Add64] adds to and returns). *)
Record bar_state : Type := {
  lastFile : string;
  lastHash : string;
  totalProgress : Z;
  prevFiles : Z;
  lastBytes : Z;
  bar_current : Z
}.

Definition bar_init : bar_state :=
  {| lastFile := ""; lastHash := ""; totalProgress := 0; prevFiles := 0;
     lastBytes := 0; bar_current := 0 |}.

(** ESC [ 2 K CR: clear the line of the progress bar. *)
Definition clear_line : string :=
  String (Ascii.ascii_of_nat 27) ("[2K" +:+ String (Ascii.ascii_of_nat 13) EmptyString).

(** The [LOOP] of [progressBar]: one turn per event received. *)
Fixpoint progressBar_LOOP (quiet quieter progress : bool)
    (re : block_cmd.CliEmitter) (sel : list select_event) (st : bar_state)
    : list bar_event * bar_state * ending :=
  match sel with
  | [] => ([], st, Waits)
  | SelClosed :: _ =>
      (if quieter then [Stdout (lastHash st +:+ LF)] else [], st, Returns)
  | SelOutOther :: _ => ([], st, Panics)
  | SelOut output :: sel' =>
      if (0 <? String.length (Hash output))%nat then
        let st := {| lastFile := lastFile st; lastHash := Hash output;
                     totalProgress := totalProgress st; prevFiles := prevFiles st;
                     lastBytes := lastBytes st; bar_current := bar_current st |} in
        if quieter then progressBar_LOOP quiet quieter progress re sel' st
        else
          let '(evs, st', e) := progressBar_LOOP quiet quieter progress re sel' st in
          ((if progress then [Stderr clear_line] else [])
           ++ [if quiet then Stdout (Hash output +:+ LF)
               else Stdout ("added " +:+ Hash output +:+ " " +:+ Name output +:+ LF)]
           ++ (if progress then [BarUpdate] else [])
           ++ evs, st', e)
      else if negb progress then progressBar_LOOP quiet quieter progress re sel' st
      else
        let lastFile1 :=
          if (String.length (lastFile st) =? 0)%nat then Name output
          else lastFile st in
        let new_file :=
          negb (String.eqb (Name output) lastFile1)
          || (Bytes output <? lastBytes st)%Z in
        let prevFiles1 :=
          if new_file then int64 (prevFiles st + lastBytes st) else prevFiles st in
        let lastFile2 := if new_file then Name output else lastFile1 in
        let lastBytes1 := Bytes output in
        let delta := int64 (int64 (prevFiles1 + lastBytes1) - totalProgress st) in
        let current := int64 (bar_current st + delta) in
        let st := {| lastFile := lastFile2; lastHash := lastHash st;
                     totalProgress := current; prevFiles := prevFiles1;
                     lastBytes := lastBytes1; bar_current := current |} in
        let '(evs, st', e) := progressBar_LOOP quiet quieter progress re sel' st in
        (BarAdd64 delta :: BarUpdate :: evs, st', e)
  | SelSize size :: sel' =>
      let '(evs, st', e) := progressBar_LOOP quiet quieter progress re sel' st in
      ((if progress then [BarTotal size] else []) ++ evs, st', e)
  | SelDone err :: _ =>
      (BarSetError err ErrNormal ::
       match block_cmd.cli_SetError re (inr err) ErrNormal with
       | Some err2 => [BarLogError err err2]
       | None => []
       end, st, Returns)
  end.

(** [progressBar] of [AddCmd.PostRun], for the events its [select]
    receives. *)
Definition progressBar (req : Request) (re : block_cmd.CliEmitter)
    (sel : list select_event) : list bar_event * bar_state * ending :=
  let '(quiet, _, _) := Option_Bool req quietOptionName in
  let '(quieter, _, _) := Option_Bool req quieterOptionName in
  let quiet := quiet || quieter in
  let '(progress, _, _) := Option_Bool req progressOptionName in
  let '(evs, st, e) := progressBar_LOOP quiet quieter progress re sel bar_init in
  ((if progress then [BarStart] else []) ++ evs
   ++ match e with Returns => [CloseWait] | _ => [] end, st, e).

(** What was written to standard output, and the position the bar was
    moved to. *)
Fixpoint stdout (evs : list bar_event) : list string :=
  match evs with
  | [] => []
  | Stdout s :: evs' => s :: stdout evs'
  | _ :: evs' => stdout evs'
  end.

Fixpoint bar_position (evs : list bar_event) (current : Z) : Z :=
  match evs with
  | [] => current
  | BarAdd64 add :: evs' => bar_position evs' (int64 (current + add))
  | _ :: evs' => bar_position evs' current
  end.

(** The outputs with a hash that [progressBar] receives before it stops
    reading, and the progress reports (outputs without a hash). *)
Fixpoint hashed (sel : list select_event) : list AddedObject :=
  match sel with
  | SelOut output :: sel' =>
      (if (0 <? String.length (Hash output))%nat then [output] else [])
      ++ hashed sel'
  | SelSize _ :: sel' => hashed sel'
  | _ => []
  end.

Fixpoint reports (sel : list select_event) : list AddedObject :=
  match sel with
  | SelOut output :: sel' =>
      (if (0 <? String.length (Hash output))%nat then [] else [output])
      ++ reports sel'
  | SelSize _ :: sel' => reports sel'
  | _ => []
  end.

(** Whether the reading ends because the channel is closed. *)
Fixpoint closed (sel : list select_event) : bool :=
  match sel with
  | SelOut _ :: sel' | SelSize _ :: sel' => closed sel'
  | SelClosed :: _ => true
  | _ => false
  end.

(** The line printed for an output with a hash. *)
Definition added_line (quiet : bool) (output : AddedObject) : string :=
  if quiet then Hash output +:+ LF
  else "added " +:+ Hash output +:+ " " +:+ Name output +:+ LF.

(** The hash of the last of [objs], or [hash0] when there is none. *)
Definition last_hash (hash0 : string) (objs : list AddedObject) : string :=
  foldl (λ _ output, Hash output) hash0 objs.

(** The bytes of the last of [objs], or [bytes0] when there is none. *)
Definition last_bytes (bytes0 : Z) (objs : list AddedObject) : Z :=
  foldl (λ _ output, Bytes output) bytes0 objs.

(** The reports are all for the file [name] and their bytes never go
    down, starting from [bytes0]. *)
Fixpoint one_file (name : string) (bytes0 : Z) (objs : list AddedObject) : Prop :=
  match objs with
  | [] => True
  | output :: objs' =>
      Name output = name ∧ (bytes0 ≤ Bytes output)%Z ∧
      one_file name (Bytes output) objs'
  end.

(** What the bar and the counters of [progressBar] keep between turns. *)
Definition bar_in_step (st : bar_state) : Prop :=
  bar_current st = totalProgress st ∧
  totalProgress st = int64 (prevFiles st + lastBytes st).

End code.
End add_cli.

(** ** More of the node to run the code on *)

Module mem_cli.
Import commands.

(** A node for [cat]: a reader is given by its size; the paths under
    "/ipfs/" open, with the length of the path as size, and the node is
    online. *)
Definition cat_extern : @cat_cmd.CatExtern mem.extern :=
  {| cat_cmd.Reader := Z;
     cat_cmd.Reader_Size := id;
     cat_cmd.coreunix_Cat := λ _ fpath,
       if String.prefix "/ipfs/" fpath then inl (Z.of_nat (String.length fpath))
       else inr (errorString "invalid ipfs ref path");
     cat_cmd.OnlineMode := λ _, true;
     cat_cmd.SetupOfflineRouting := λ _, None |}.

(** An emitter of the CLI whose [SetError] never fails. *)
Definition emitter : block_cmd.CliEmitter :=
  {| block_cmd.cli_SetError := λ _ _, None |}.

(** A response that gives the outcomes [rs] and then ends as [last]
    says. *)
Definition response (rs : list filestore.RemovedBlock) (last : block_cmd.next_error)
    : block_cmd.Response :=
  {| block_cmd.Next_values := block_cmd.is_RemovedBlock <$> rs;
     block_cmd.Next_error := last;
     block_cmd.res_Error :=
       {| block_cmd.Message := "connection lost"; block_cmd.Code := ErrNormal |} |}.

Definition removed (hash error : string) : filestore.RemovedBlock :=
  {| filestore.Hash := hash; filestore.Error := error |}.

(** A request to a node whose filestore is not enabled. *)
Definition request_no_filestore (given : list (string * bool)) : Request :=
  {| GetNode := inl {| Repo_Config :=
                         inl {| Experimental_FilestoreEnabled := false |} |};
     Arguments := [];
     Option_Bool := Option_Bool (mem.request [] given);
     Option_String := Option_String (mem.request [] given) |}.

End mem_cli.

(** * Facts about package filestore *)

Section filestore_facts.
Import filestore.
Context `{Extern}.

Implicit Types (fs : Filestore) (pins : Pinner) (opts : RmBlocksOpts)
  (cids cs : list Cid) (res : list Pinned) (t : list event) (s : St)
  (w : World) (out : chan) (lock blocks foundIn : ref).

(** ** The monad *)

Lemma bind_run {A B} (m : M A) (k : A → M B) s :
  (m ≫= k) s = match m s with
               | (s', Returned a) => k a s'
               | (s', Panicked msg) => (s', Panicked msg)
               end.
Proof. reflexivity. Qed.

Lemma emit_run (e : event) s :
  emit e s = ({| world := world s; trace := trace s ++ [e] |}, Returned tt).
Proof. reflexivity. Qed.

Lemma state_eta s : {| world := world s; trace := trace s |} = s.
Proof. by destruct s. Qed.

(** ** AvailableElsewhere and FilterPinned *)

Lemma switch_known fs opts blocks :
  RmBlocks_switch fs opts = Some blocks → known fs blocks.
Proof.
  unfold RmBlocks_switch, known.
  destruct (String.eqb _ _); [intros [= <-]; by left|].
  destruct (String.eqb _ _); [intros [= <-]; by right|done].
Qed.

Lemma AvailableElsewhere_known fs foundIn (c : Cid) s :
  known fs foundIn →
  AvailableElsewhere fs foundIn c s
  = (s, Returned (Has (world s) (sibling fs foundIn) c).1).
Proof.
  intros Hk. unfold AvailableElsewhere, sibling.
  destruct (decide (fm fs = foundIn)) as [|Hfm].
  - rewrite bind_run. unfold call_Has. by destruct (Has _ _ _).
  - destruct (decide (bs fs = foundIn)) as [|Hbs].
    + rewrite bind_run. unfold call_Has. by destruct (Has _ _ _).
    + by destruct Hk.
Qed.

Lemma FilterPinned_range_run fs out foundIn res (acc : list Cid) s :
  known fs foundIn →
  FilterPinned_range fs out foundIn res acc s
  = ({| world := world s;
        trace := trace s ++
          (EvSend out ∘ rejection <$>
             filter (λ r, ¬ deletable (world s) fs foundIn r) res) |},
     Returned (acc ++ (Key <$> filter (λ r, deletable (world s) fs foundIn r) res))).
Proof.
  intros Hk. revert acc s. induction res as [|r res IH]; intros acc s.
  - cbn. rewrite !app_nil_r. by rewrite state_eta.
  - cbn [FilterPinned_range]. rewrite bind_run.
    assert ((if negb (Pinned_Pinned r) then mret true
             else AvailableElsewhere fs foundIn (Key r)) s
            = (s, Returned (deletable (world s) fs foundIn r))) as ->.
    { unfold deletable. destruct (Pinned_Pinned r); cbn [negb orb]; [|done].
      by apply AvailableElsewhere_known. }
    rewrite !filter_cons.
    destruct (deletable (world s) fs foundIn r) eqn:Hd.
    + rewrite IH. rewrite <- Hd.
      repeat case_decide; try (exfalso; rewrite Hd in *; cbn in *; tauto).
      cbn. by rewrite <- app_assoc.
    + rewrite bind_run. unfold send. rewrite emit_run, IH. rewrite <- Hd.
      repeat case_decide; try (exfalso; rewrite Hd in *; cbn in *; tauto).
      cbn. by rewrite <- app_assoc.
Qed.

Lemma FilterPinned_ok fs pins out cids foundIn res s :
  known fs foundIn →
  CheckIfPinned pins cids = (res, None) →
  FilterPinned fs pins out cids foundIn s
  = ({| world := world s;
        trace := trace s ++
          (EvSend out ∘ rejection <$>
             filter (λ r, ¬ deletable (world s) fs foundIn r) res) |},
     Returned (Key <$> filter (λ r, deletable (world s) fs foundIn r) res)).
Proof.
  intros Hk Hres. unfold FilterPinned. rewrite Hres.
  by rewrite FilterPinned_range_run.
Qed.

Lemma FilterPinned_failed fs pins out cids foundIn res e s :
  CheckIfPinned pins cids = (res, Some e) →
  FilterPinned fs pins out cids foundIn s
  = ({| world := world s;
        trace := trace s ++
          [EvSend out {| Hash := "";
                         Error := "pin check failed: " +:+ error_Error e |}] |},
     Returned []).
Proof. intros Hres. unfold FilterPinned. by rewrite Hres. Qed.

(** ** The delete loop *)

Lemma RmBlocks_body_run out blocks opts (c : Cid) s :
  RmBlocks_body out blocks opts c s
  = ({| world := (DeleteBlock (world s) blocks c).1;
        trace := trace s ++
          body_events out blocks opts (c, (DeleteBlock (world s) blocks c).2) |},
     Returned tt).
Proof.
  unfold RmBlocks_body, body_events, body_outcome, is_NotFound.
  rewrite bind_run. unfold call_DeleteBlock.
  destruct (DeleteBlock (world s) blocks c) as [w1 [e|]]; cbn [fst snd].
  - destruct (Force opts && _); cbn; [done|].
    unfold send. rewrite emit_run. cbn. by rewrite <- app_assoc.
  - destruct (Quiet opts); cbn; [done|].
    unfold send. rewrite emit_run. cbn. by rewrite <- app_assoc.
Qed.

Lemma for_range_run out blocks opts cs s :
  for_range cs (RmBlocks_body out blocks opts) s
  = ({| world := (delete_run (world s) blocks cs).1;
        trace := trace s ++
          flat_map (body_events out blocks opts)
            (delete_run (world s) blocks cs).2 |},
     Returned tt).
Proof.
  revert s. induction cs as [|c cs IH]; intros s.
  - cbn. by rewrite app_nil_r, state_eta.
  - cbn [for_range delete_run]. rewrite bind_run, RmBlocks_body_run, IH.
    cbn [world trace].
    destruct (DeleteBlock (world s) blocks c) as [w1 err]; cbn [fst snd].
    destruct (delete_run w1 blocks cs) as [w2 log]; cbn [fst snd flat_map].
    by rewrite <- app_assoc.
Qed.

(** ** The whole of RmBlocks *)

Lemma RmBlocks_no_backend fs lock pins cids opts s :
  RmBlocks_switch fs opts = None →
  RmBlocks fs lock pins cids opts s
  = (s, Returned (None, Some (errorString
                    ("Unknown prefix: " +:+ Prefix opts +:+ LF)))).
Proof. intros Hsw. unfold RmBlocks. by rewrite Hsw. Qed.

(** The trace of a run whose pin check succeeds: the goroutine takes the
    lock, sends the rejections, deletes, unlocks and closes. *)
Lemma RmBlocks_ok fs lock pins cids opts blocks res w :
  RmBlocks_switch fs opts = Some blocks →
  CheckIfPinned pins cids = (res, None) →
  let out := {| chan_cap := length cids |} in
  let run := delete_run w blocks (Key <$> filter (λ r, deletable w fs blocks r) res) in
  exec (RmBlocks fs lock pins cids opts) w
  = ({| world := run.1;
        trace := [EvGo; EvGCLock lock]
          ++ (EvSend out ∘ rejection <$> filter (λ r, ¬ deletable w fs blocks r) res)
          ++ flat_map (body_events out blocks opts) run.2
          ++ [EvUnlock lock; EvClose out] |},
     Returned (Some out, None)).
Proof.
  intros Hsw Hres out run. unfold exec, RmBlocks. rewrite Hsw.
  rewrite bind_run. unfold go_. rewrite bind_run, emit_run.
  unfold defer at 1. rewrite bind_run. unfold GCLock.
  rewrite bind_run, emit_run. cbn [world trace app].
  unfold mret at 1, M_ret, ret. unfold defer.
  rewrite bind_run.
  rewrite (FilterPinned_ok _ _ _ _ _ res) by eauto using switch_known.
  rewrite for_range_run. cbn [world trace fst snd].
  unfold Unlock, close. rewrite !emit_run. cbn [world trace fst snd].
  subst run out. f_equal. f_equal.
  by rewrite <- !app_assoc.
Qed.

(** The trace of a run whose pin check fails. *)
Lemma RmBlocks_failed fs lock pins cids opts blocks res e w :
  RmBlocks_switch fs opts = Some blocks →
  CheckIfPinned pins cids = (res, Some e) →
  let out := {| chan_cap := length cids |} in
  exec (RmBlocks fs lock pins cids opts) w
  = ({| world := w;
        trace := [EvGo; EvGCLock lock;
                  EvSend out {| Hash := "";
                                Error := "pin check failed: " +:+ error_Error e |};
                  EvUnlock lock; EvClose out] |},
     Returned (Some out, None)).
Proof.
  intros Hsw Hres out. unfold exec, RmBlocks. rewrite Hsw.
  rewrite bind_run. unfold go_. rewrite bind_run, emit_run.
  unfold defer at 1. rewrite bind_run. unfold GCLock.
  rewrite bind_run, emit_run. cbn [world trace app].
  unfold mret at 1, M_ret, ret. unfold defer.
  rewrite bind_run.
  rewrite (FilterPinned_failed _ _ _ _ _ res e) by done.
  by cbn.
Qed.

(** ** Reading the trace of a run *)

Lemma sent_app t1 t2 : sent (t1 ++ t2) = sent t1 ++ sent t2.
Proof.
  induction t1 as [|e t1 IH]; [done|].
  destruct e; cbn; by rewrite ?IH.
Qed.

Lemma deleted_app t1 t2 : deleted (t1 ++ t2) = deleted t1 ++ deleted t2.
Proof.
  induction t1 as [|e t1 IH]; [done|].
  destruct e; cbn; by rewrite ?IH.
Qed.

Lemma deleted_elem t o (c : Cid) err :
  EvDeleteBlock o c err ∈ t ↔ (o, c, err) ∈ deleted t.
Proof.
  induction t as [|e t IH]; [by rewrite !elem_of_nil|].
  rewrite elem_of_cons, IH.
  destruct e; cbn; rewrite ?elem_of_cons;
    (intuition (try discriminate)); [left; congruence|left; congruence].
Qed.

Lemma sent_elem t (v : RemovedBlock) :
  v ∈ sent t ↔ ∃ out, EvSend out v ∈ t.
Proof.
  induction t as [|e t IH].
  - cbn. rewrite elem_of_nil. split; [done|]. intros [? Hin]. by inversion Hin.
  - setoid_rewrite elem_of_cons.
    destruct e; cbn; rewrite ?elem_of_cons, IH;
      try (split; [intros [out' Hin]; exists out'; by right
                  |intros [out' [Hin|Hin]]; [done|by exists out']]).
    split.
    + intros [->|[out' Hin]]; [by exists out; left|exists out'; by right].
    + intros [out' [[= _ ->]|Hin]]; [by left|right; by exists out'].
Qed.

Lemma sent_sends out (vs : list RemovedBlock) : sent (EvSend out <$> vs) = vs.
Proof. induction vs as [|v vs IH]; csimpl; by rewrite ?IH. Qed.

Lemma deleted_sends out (vs : list RemovedBlock) : deleted (EvSend out <$> vs) = [].
Proof. induction vs as [|v vs IH]; csimpl; by rewrite ?IH. Qed.

Lemma sent_bodies out blocks opts (log : list (Cid * option error)) :
  sent (flat_map (body_events out blocks opts) log)
  = omap (λ ce, body_outcome opts ce.1 ce.2) log.
Proof.
  induction log as [|[c err] log IH]; [done|].
  cbn [flat_map]. rewrite sent_app, IH. unfold body_events. csimpl.
  by destruct (body_outcome opts c err).
Qed.

Lemma deleted_bodies out blocks opts (log : list (Cid * option error)) :
  deleted (flat_map (body_events out blocks opts) log)
  = (λ ce, (blocks, ce.1, ce.2)) <$> log.
Proof.
  induction log as [|[c err] log IH]; [done|].
  cbn [flat_map]. rewrite deleted_app, IH.
  unfold body_events. csimpl.
  by destruct (body_outcome opts c err).
Qed.

Lemma delete_run_cids w blocks cs : (delete_run w blocks cs).2.*1 = cs.
Proof.
  revert w. induction cs as [|c cs IH]; intros w; [done|].
  cbn [delete_run]. destruct (DeleteBlock w blocks c) as [w1 err].
  specialize (IH w1). destruct (delete_run w1 blocks cs) as [w2 log].
  cbn in *. by rewrite IH.
Qed.

(** What was sent and what was deleted in a run whose pin check succeeds. *)
Lemma sent_ok fs lock pins cids opts blocks res w :
  RmBlocks_switch fs opts = Some blocks →
  CheckIfPinned pins cids = (res, None) →
  sent (events (RmBlocks fs lock pins cids opts) w)
  = (rejection <$> filter (λ r, ¬ deletable w fs blocks r) res)
    ++ omap (λ ce, body_outcome opts ce.1 ce.2)
         (delete_run w blocks
            (Key <$> filter (λ r, deletable w fs blocks r) res)).2.
Proof.
  intros Hsw Hres. unfold events.
  rewrite (RmBlocks_ok _ _ _ _ _ blocks res) by done. cbn [fst trace].
  rewrite list_fmap_compose, !sent_app, sent_sends, sent_bodies.
  cbn. by rewrite app_nil_r.
Qed.

Lemma deleted_ok fs lock pins cids opts blocks res w :
  RmBlocks_switch fs opts = Some blocks →
  CheckIfPinned pins cids = (res, None) →
  deleted (events (RmBlocks fs lock pins cids opts) w)
  = (λ ce, (blocks, ce.1, ce.2)) <$>
      (delete_run w blocks (Key <$> filter (λ r, deletable w fs blocks r) res)).2.
Proof.
  intros Hsw Hres. unfold events.
  rewrite (RmBlocks_ok _ _ _ _ _ blocks res) by done. cbn [fst trace].
  rewrite list_fmap_compose, !deleted_app, deleted_sends, deleted_bodies.
  cbn. by rewrite app_nil_r.
Qed.

Lemma events_unknown fs lock pins cids opts w :
  RmBlocks_switch fs opts = None →
  events (RmBlocks fs lock pins cids opts) w = [].
Proof. intros Hsw. unfold events, exec. by rewrite RmBlocks_no_backend. Qed.

Lemma events_failed fs lock pins cids opts blocks res e w :
  RmBlocks_switch fs opts = Some blocks →
  CheckIfPinned pins cids = (res, Some e) →
  events (RmBlocks fs lock pins cids opts) w
  = [EvGo; EvGCLock lock;
     EvSend {| chan_cap := length cids |}
       {| Hash := ""; Error := "pin check failed: " +:+ error_Error e |};
     EvUnlock lock; EvClose {| chan_cap := length cids |}].
Proof.
  intros Hsw Hres. unfold events.
  by rewrite (RmBlocks_failed _ _ _ _ _ blocks res e).
Qed.

(** ** Pinned blocks are kept *)

(** C1. Whatever the request and the answer of the pin set, [RmBlocks]
    calls [DeleteBlock] only on CIDs that an entry of the pin check
    reports as not pinned or that the sibling backend has; the calls are,
    in order, the entries that are not pinned or have a copy in the sibling
    backend; and every entry that is pinned with no copy in the sibling
    backend is answered with an outcome that carries its CID and, as error
    message, the pin reason. *)
Theorem RmBlocks_keeps_pinned fs lock pins cids opts w :
  let t := events (RmBlocks fs lock pins cids opts) w in
  (∀ o c err, (o, c, err) ∈ deleted t →
     ∃ res r,
       RmBlocks_switch fs opts = Some o ∧
       CheckIfPinned pins cids = (res, None) ∧
       r ∈ res ∧ Key r = c ∧
       (Pinned_Pinned r = false ∨ (Has w (sibling fs o) c).1 = true)) ∧
  (∀ blocks res,
     RmBlocks_switch fs opts = Some blocks →
     CheckIfPinned pins cids = (res, None) →
     (deleted t).*1
       = (λ r, (blocks, Key r)) <$> filter (λ r, deletable w fs blocks r) res ∧
     ∀ r, r ∈ res → Pinned_Pinned r = true →
          (Has w (sibling fs blocks) (Key r)).1 = false →
          rejection r ∈ sent t ∧
          (∀ err, EvDeleteBlock blocks (Key r) err ∈ t →
             ∃ r', r' ∈ res ∧ Key r' = Key r ∧ Pinned_Pinned r' = false)).
Proof.
  intros t. subst t. split.
  - intros o c err Hin.
    destruct (RmBlocks_switch fs opts) as [blocks|] eqn:Hsw;
      [|by rewrite events_unknown in Hin by done; inversion Hin].
    destruct (CheckIfPinned pins cids) as [res [e|]] eqn:Hres;
      [by rewrite (events_failed _ _ _ _ _ blocks res e) in Hin by done;
          inversion Hin|].
    rewrite (deleted_ok _ _ _ _ _ blocks res) in Hin by done.
    apply list_elem_of_fmap in Hin as ([c' err'] & Heq & Hlog).
    cbn in Heq. injection Heq as Ho Hc Herr. subst o c' err'.
    assert (c ∈ (delete_run w blocks
                   (Key <$> filter (λ r, deletable w fs blocks r) res)).2.*1)
      as Hc by (apply list_elem_of_fmap; by exists (c, err)).
    rewrite delete_run_cids in Hc.
    apply list_elem_of_fmap in Hc as (r & -> & Hr).
    apply list_elem_of_filter in Hr as [Hd Hr].
    exists res, r. repeat split; try done.
    unfold deletable in Hd. apply orb_True in Hd as [Hd|Hd].
    + left. by apply negb_True, Is_true_false in Hd.
    + right. by apply Is_true_true.
  - intros blocks res Hsw Hres. split.
    + rewrite (deleted_ok _ _ _ _ _ blocks res) by done.
      trans ((λ c : Cid, (blocks, c)) <$>
               (delete_run w blocks
                  (Key <$> filter (λ r, deletable w fs blocks r) res)).2.*1).
      { rewrite <- !list_fmap_compose. by apply list_fmap_ext. }
      rewrite delete_run_cids. by rewrite <- list_fmap_compose.
    + intros r Hr Hp Hhas. split.
      * rewrite (sent_ok _ _ _ _ _ blocks res) by done.
        apply elem_of_app. left. apply list_elem_of_fmap. exists r. split; [done|].
        apply list_elem_of_filter. split; [|done].
        unfold deletable. rewrite Hp, Hhas. cbn. tauto.
      * intros err Hev.
        apply deleted_elem in Hev as Hin.
        rewrite (deleted_ok _ _ _ _ _ blocks res) in Hin by done.
        apply list_elem_of_fmap in Hin as ([c' err'] & [= Hc' _] & Hlog).
        cbn in Hc'. subst c'.
        assert (Key r ∈ (delete_run w blocks
                   (Key <$> filter (λ r, deletable w fs blocks r) res)).2.*1)
          as Hc by (apply list_elem_of_fmap; by exists (Key r, err')).
        rewrite delete_run_cids in Hc.
        apply list_elem_of_fmap in Hc as (r' & Hk & Hr').
        apply list_elem_of_filter in Hr' as [Hd Hr'].
        exists r'. repeat split; try done.
        unfold deletable in Hd. rewrite <- Hk, Hhas in Hd.
        rewrite orb_false_r in Hd. by apply negb_True, Is_true_false in Hd.
Qed.

(** ** The sibling backend *)

(** C2. Called with the file manager, [AvailableElsewhere] returns what
    [Has] of the plain block store returns for the CID; called with the
    plain block store, what [Has] of the file manager returns; called with
    anything else it panics, and returns no error value. *)
Theorem AvailableElsewhere_sibling_Has fs foundIn (c : Cid) s :
  (fm fs = foundIn →
     AvailableElsewhere fs foundIn c s
     = (s, Returned (Has (world s) (bs fs) c).1)) ∧
  (bs fs = foundIn →
     AvailableElsewhere fs foundIn c s
     = (s, Returned (Has (world s) (fm fs) c).1)) ∧
  (fm fs ≠ foundIn → bs fs ≠ foundIn →
     AvailableElsewhere fs foundIn c s
     = (s, Panicked "invalid pointer for foundIn")).
Proof.
  unfold AvailableElsewhere. repeat split.
  - intros Hfm. rewrite decide_True by done.
    rewrite bind_run. unfold call_Has. by destruct (Has _ _ _).
  - intros Hbs. destruct (decide (fm fs = foundIn)) as [Hfm|Hfm].
    + rewrite bind_run. unfold call_Has.
      replace (bs fs) with (fm fs) by congruence. by destruct (Has _ _ _).
    + rewrite decide_True by done.
      rewrite bind_run. unfold call_Has. by destruct (Has _ _ _).
  - intros Hfm Hbs. by rewrite !decide_False by done.
Qed.

(** ** An unknown prefix *)

Lemma switch_unknown fs opts :
  Prefix opts ≠ FilestorePrefix_String →
  Prefix opts ≠ BlockPrefix_String →
  RmBlocks_switch fs opts = None.
Proof.
  intros Hf Hb. unfold RmBlocks_switch.
  destruct (String.eqb_spec (Prefix opts) FilestorePrefix_String); [done|].
  by destruct (String.eqb_spec (Prefix opts) BlockPrefix_String).
Qed.

(** C6. With a prefix that is neither that of the filestore nor that of the
    plain block store, [RmBlocks] returns no channel and the error
    "Unknown prefix: ..." and leaves the state as it was: the goroutine is
    not started, the GC lock is not taken, nothing is sent and
    [DeleteBlock] is not called. *)
Theorem RmBlocks_unknown_prefix fs lock pins cids opts s :
  Prefix opts ≠ FilestorePrefix_String →
  Prefix opts ≠ BlockPrefix_String →
  RmBlocks fs lock pins cids opts s
  = (s, Returned (None, Some (errorString
                    ("Unknown prefix: " +:+ Prefix opts +:+ LF)))).
Proof. intros Hf Hb. apply RmBlocks_no_backend. by apply switch_unknown. Qed.

(** ** A failed pin check *)

(** C10. When [CheckIfPinned] returns an error, the run sends one outcome,
    with an empty hash and the message "pin check failed: ..." followed by
    the text of the error, then unlocks and closes the channel;
    [DeleteBlock] is never called and the world is the one the run started
    in. *)
Theorem RmBlocks_pin_check_failed fs lock pins cids opts blocks res e w :
  RmBlocks_switch fs opts = Some blocks →
  CheckIfPinned pins cids = (res, Some e) →
  let out := {| chan_cap := length cids |} in
  let v := {| Hash := ""; Error := "pin check failed: " +:+ error_Error e |} in
  let '(s, r) := exec (RmBlocks fs lock pins cids opts) w in
  r = Returned (Some out, None) ∧
  trace s = [EvGo; EvGCLock lock; EvSend out v; EvUnlock lock; EvClose out] ∧
  sent (trace s) = [v] ∧
  deleted (trace s) = [] ∧
  world s = w.
Proof.
  intros Hsw Hres out v.
  by rewrite (RmBlocks_failed _ _ _ _ _ blocks res e).
Qed.

(** ** Each DeleteBlock and the outcome that follows it *)

Lemma per_delete_sends out (vs : list RemovedBlock) t :
  per_delete ((EvSend out <$> vs) ++ t) = per_delete t.
Proof. induction vs as [|v vs IH]; csimpl; by rewrite ?IH. Qed.

Lemma no_send_next_bodies out blocks opts (log : list (Cid * option error)) t :
  no_send_next t →
  no_send_next (flat_map (body_events out blocks opts) log ++ t).
Proof. by destruct log. Qed.

Lemma per_delete_bodies out blocks opts (log : list (Cid * option error)) t :
  no_send_next t →
  per_delete (flat_map (body_events out blocks opts) log ++ t)
  = ((λ ce, (ce.1, ce.2, body_outcome opts ce.1 ce.2)) <$> log) ++ per_delete t.
Proof.
  intros Ht. induction log as [|[c err] log IH]; [done|].
  cbn [flat_map]. rewrite <- app_assoc. unfold body_events at 1.
  csimpl. rewrite <- IH.
  destruct (body_outcome opts c err) as [v|]; [done|].
  csimpl. f_equal. f_equal.
  pose proof (no_send_next_bodies out blocks opts log t Ht) as Hn.
  by destruct (flat_map _ log ++ t) as [|[] ?].
Qed.

Lemma per_delete_ok fs lock pins cids opts blocks res w :
  RmBlocks_switch fs opts = Some blocks →
  CheckIfPinned pins cids = (res, None) →
  per_delete (events (RmBlocks fs lock pins cids opts) w)
  = (λ ce, (ce.1, ce.2, body_outcome opts ce.1 ce.2)) <$>
      (delete_run w blocks (Key <$> filter (λ r, deletable w fs blocks r) res)).2.
Proof.
  intros Hsw Hres. unfold events.
  rewrite (RmBlocks_ok _ _ _ _ _ blocks res) by done. cbn [fst trace].
  cbn [app per_delete]. rewrite list_fmap_compose, per_delete_sends.
  rewrite per_delete_bodies by done. cbn. by rewrite app_nil_r.
Qed.

Lemma per_delete_not_ok fs lock pins cids opts w :
  RmBlocks_switch fs opts = None ∨
  (∃ blocks res e, RmBlocks_switch fs opts = Some blocks ∧
                   CheckIfPinned pins cids = (res, Some e)) →
  per_delete (events (RmBlocks fs lock pins cids opts) w) = [] ∧
  deleted (events (RmBlocks fs lock pins cids opts) w) = [].
Proof.
  intros [Hsw|(blocks & res & e & Hsw & Hres)].
  - by rewrite events_unknown.
  - by rewrite (events_failed _ _ _ _ _ blocks res e).
Qed.

Lemma RmBlocks_cases fs pins cids opts :
  (RmBlocks_switch fs opts = None ∨
   (∃ blocks res e, RmBlocks_switch fs opts = Some blocks ∧
                    CheckIfPinned pins cids = (res, Some e))) ∨
  (∃ blocks res, RmBlocks_switch fs opts = Some blocks ∧
                 CheckIfPinned pins cids = (res, None)).
Proof.
  destruct (RmBlocks_switch fs opts) as [blocks|]; [|by left; left].
  destruct (CheckIfPinned pins cids) as [res [e|]]; [left; right|right]; eauto.
Qed.

(** C3. In every run of [RmBlocks], a [DeleteBlock] that fails with one of
    the two not-found errors is followed by no outcome when [Force] is set,
    and by an outcome with the CID and the text of the error when [Force]
    is not set; a [DeleteBlock] that fails with any other error is
    followed by such an outcome whether [Force] is set or not. *)
Theorem RmBlocks_delete_failure fs lock pins cids opts w (c : Cid) e o :
  (c, Some e, o) ∈ per_delete (events (RmBlocks fs lock pins cids opts) w) →
  let reported := Some {| Hash := Cid_String c; Error := error_Error e |} in
  (e = bs_ErrNotFound ∨ e = ds_ErrNotFound →
     (Force opts = true → o = None) ∧ (Force opts = false → o = reported)) ∧
  (e ≠ bs_ErrNotFound → e ≠ ds_ErrNotFound → o = reported).
Proof.
  intros Hin reported.
  destruct (RmBlocks_cases fs pins cids opts) as [Hno|(blocks & res & Hsw & Hres)].
  { apply (per_delete_not_ok _ lock _ _ _ w) in Hno as [Hno _].
    rewrite Hno in Hin. by apply elem_of_nil in Hin. }
  rewrite (per_delete_ok _ _ _ _ _ blocks res) in Hin by done.
  apply list_elem_of_fmap in Hin as ([c' err'] & Heq & _).
  cbn in Heq. injection Heq as Hc He Ho. subst c' err' o.
  unfold body_outcome, is_NotFound. subst reported. split.
  - intros Hnf. split; intros ->; [|done].
    destruct Hnf as [-> | ->]; by cbn.
  - intros Hbs Hds.
    rewrite !bool_decide_eq_false_2 by done. by rewrite andb_false_r.
Qed.

(** ** Quiet runs *)

Lemma failures_sends out (vs : list RemovedBlock) t :
  failures false ((EvSend out <$> vs) ++ t) = vs ++ failures false t.
Proof. induction vs as [|v vs IH]; csimpl; by rewrite ?IH. Qed.

Lemma failures_bodies out blocks opts lock (log : list (Cid * option error)) b :
  failures b (flat_map (body_events out blocks opts) log
              ++ [EvUnlock lock; EvClose out])
  = omap (λ ce, if ce.2 is Some _ then body_outcome opts ce.1 ce.2 else None) log.
Proof.
  revert b. induction log as [|[c [e|]] log IH]; intros b; [done|..];
    cbn [flat_map]; rewrite <- app_assoc; unfold body_events at 1; csimpl.
  - destruct (Force opts && is_NotFound e); csimpl; by rewrite IH.
  - destruct (Quiet opts); csimpl; by rewrite IH.
Qed.

Lemma failures_ok fs lock pins cids opts blocks res w :
  RmBlocks_switch fs opts = Some blocks →
  CheckIfPinned pins cids = (res, None) →
  failures false (events (RmBlocks fs lock pins cids opts) w)
  = (rejection <$> filter (λ r, ¬ deletable w fs blocks r) res)
    ++ omap (λ ce, if ce.2 is Some _ then body_outcome opts ce.1 ce.2 else None)
         (delete_run w blocks
            (Key <$> filter (λ r, deletable w fs blocks r) res)).2.
Proof.
  intros Hsw Hres. unfold events.
  rewrite (RmBlocks_ok _ _ _ _ _ blocks res) by done. cbn [fst trace].
  cbn [app failures]. by rewrite list_fmap_compose, failures_sends, failures_bodies.
Qed.

(** C4. Take two runs of [RmBlocks] that differ in [Quiet] only.  In the
    run that is not quiet, every [DeleteBlock] that returns nil is followed
    by an outcome with the CID and an empty error string.  In the quiet
    run no such outcome follows, and what is sent is exactly what the other
    run sends apart from these success outcomes: the rejections of pinned
    blocks and the delete errors are the same in both.  Both runs make the
    same calls of [DeleteBlock] and end in the same world. *)
Theorem RmBlocks_quiet fs lock pins cids prefix force w :
  let run q := exec (RmBlocks fs lock pins cids
                       {| Prefix := prefix; Quiet := q; Force := force |}) w in
  let loud := trace (run false).1 in
  let quiet := trace (run true).1 in
  (∀ c o, (c, None, o) ∈ per_delete loud →
          o = Some {| Hash := Cid_String c; Error := "" |}) ∧
  (∀ c o, (c, None, o) ∈ per_delete quiet → o = None) ∧
  sent quiet = failures false loud ∧
  failures false quiet = failures false loud ∧
  deleted quiet = deleted loud ∧
  world (run true).1 = world (run false).1.
Proof.
  intros run loud quiet. subst run loud quiet. cbn beta.
  set (optsF := {| Prefix := prefix; Quiet := false; Force := force |}).
  set (optsT := {| Prefix := prefix; Quiet := true; Force := force |}).
  assert (RmBlocks_switch fs optsT = RmBlocks_switch fs optsF) as Hsame by done.
  destruct (RmBlocks_switch fs optsF) as [blocks|] eqn:Hsw.
  2:{ unfold exec. rewrite !RmBlocks_no_backend by done. cbn.
      repeat split; intros ? ? Hin; by apply elem_of_nil in Hin. }
  destruct (CheckIfPinned pins cids) as [res [e|]] eqn:Hres.
  { rewrite !(RmBlocks_failed _ _ _ _ _ blocks res e) by done. cbn.
    repeat split; intros ? ? Hin; by apply elem_of_nil in Hin. }
  fold (events (RmBlocks fs lock pins cids optsF) w).
  fold (events (RmBlocks fs lock pins cids optsT) w).
  rewrite !(per_delete_ok _ _ _ _ _ blocks res) by done.
  rewrite !(failures_ok _ _ _ _ _ blocks res) by done.
  rewrite !(sent_ok _ _ _ _ _ blocks res) by done.
  rewrite !(deleted_ok _ _ _ _ _ blocks res) by done.
  rewrite !(RmBlocks_ok _ _ _ _ _ blocks res) by done. cbn [fst world].
  set (log := (delete_run w blocks _).2).
  assert (omap (λ ce, body_outcome optsT ce.1 ce.2) log
          = omap (λ ce, if ce.2 is Some _ then body_outcome optsF ce.1 ce.2
                        else None) log) as Hq.
  { apply list_omap_ext. apply Forall2_same_length_lookup_2; [done|].
    intros i [c [e|]] [c' e']; intros Hi Hi'; by simplify_eq. }
  assert (omap (λ ce, if ce.2 is Some _ then body_outcome optsT ce.1 ce.2
                      else None) log
          = omap (λ ce, if ce.2 is Some _ then body_outcome optsF ce.1 ce.2
                        else None) log) as Hf.
  { apply list_omap_ext. apply Forall2_same_length_lookup_2; [done|].
    intros i [c [e|]] [c' e']; intros Hi Hi'; by simplify_eq. }
  rewrite Hq, Hf. repeat split.
  - intros c o Hin. apply list_elem_of_fmap in Hin as ([c' err'] & Heq & _).
    cbn in Heq. by simplify_eq.
  - intros c o Hin. apply list_elem_of_fmap in Hin as ([c' err'] & Heq & _).
    cbn in Heq. by simplify_eq.
Qed.

(** ** The size of the channel *)

Lemma sends_under_lock_le b t : sends_under_lock b t ≤ length (sent t).
Proof.
  revert b. induction t as [|e t IH]; intros b; [done|].
  destruct e; cbn; try apply IH.
  specialize (IH b). destruct b; lia.
Qed.

Lemma length_filter_split (P : Pinned → Prop) `{∀ r, Decision (P r)} res :
  length (filter (λ r, ¬ P r) res) + length (filter P res) = length res.
Proof.
  rewrite <- length_app.
  rewrite (Permutation_app_comm (filter (λ r, ¬ P r) res)).
  by rewrite filter_app_complement.
Qed.

Lemma length_omap_le {A B} (f : A → option B) (l : list A) :
  length (omap f l) ≤ length l.
Proof.
  induction l as [|x l IH]; [done|]. csimpl. destruct (f x); cbn; lia.
Qed.

Lemma length_delete_run w blocks cs : length (delete_run w blocks cs).2 = length cs.
Proof. by rewrite <- (length_fmap fst), delete_run_cids. Qed.

(** A run whose pin check succeeds sends at most one outcome per entry of
    the pin check. *)
Lemma length_sent_ok fs lock pins cids opts blocks res w :
  RmBlocks_switch fs opts = Some blocks →
  CheckIfPinned pins cids = (res, None) →
  length (sent (events (RmBlocks fs lock pins cids opts) w)) ≤ length res.
Proof.
  intros Hsw Hres. rewrite (sent_ok _ _ _ _ _ blocks res) by done.
  rewrite length_app, length_fmap.
  etrans; [apply Nat.add_le_mono_l, length_omap_le|].
  rewrite length_delete_run, length_fmap.
  by rewrite (length_filter_split (λ r, deletable w fs blocks r)).
Qed.

(** As long as the pin check answers with no more entries than CIDs
    requested, and the request is not empty when the pin check fails, the
    sends made while the lock is held fit into the channel. *)
Lemma RmBlocks_sends_fit fs lock pins cids opts res err w :
  CheckIfPinned pins cids = (res, err) →
  (err = None → length res ≤ length cids) →
  (err ≠ None → cids ≠ []) →
  sends_under_lock false (events (RmBlocks fs lock pins cids opts) w)
  ≤ length cids.
Proof.
  intros Hres Hok Hfail.
  destruct (RmBlocks_switch fs opts) as [blocks|] eqn:Hsw;
    [|rewrite events_unknown by done; cbn; lia].
  destruct err as [e|].
  - rewrite (events_failed _ _ _ _ _ blocks res e) by done. cbn.
    destruct cids; [by destruct Hfail|cbn; lia].
  - etrans; [apply sends_under_lock_le|].
    etrans; [by apply (length_sent_ok _ _ _ _ _ blocks res)|]. by apply Hok.
Qed.

(** C7. The channel is made with room for as many values as CIDs are
    requested.  With an empty request whose pin check fails that is no
    room at all, and the run still sends one outcome while it holds the
    lock: the send finds the channel full. *)
Theorem RmBlocks_empty_request_send_blocks fs lock pins opts blocks res e w :
  RmBlocks_switch fs opts = Some blocks →
  CheckIfPinned pins [] = (res, Some e) →
  let v := {| Hash := ""; Error := "pin check failed: " +:+ error_Error e |} in
  let '(s, r) := exec (RmBlocks fs lock pins [] opts) w in
  ∃ out, r = Returned (Some out, None) ∧
         chan_cap out = 0 ∧
         sends_under_lock false (trace s) = 1 ∧
         blocked_sends false 0 (trace s) = [v].
Proof.
  intros Hsw Hres v.
  rewrite (RmBlocks_failed _ _ _ _ _ blocks res e) by done.
  by eexists.
Qed.

(** ** One outcome per requested CID *)

(** C8. In a run with [Quiet] and [Force] off whose pin check succeeds
    with one entry per requested CID, the hashes of the outcomes sent are
    the string forms of the requested CIDs, each as often as it was
    requested, and each outcome is a rejection of a pinned entry, the
    report of a failed [DeleteBlock] or the report of a [DeleteBlock] that
    returned nil. *)
Theorem RmBlocks_each_cid_once fs lock pins cids opts blocks res w :
  RmBlocks_switch fs opts = Some blocks →
  Quiet opts = false →
  Force opts = false →
  CheckIfPinned pins cids = (res, None) →
  Key <$> res ≡ₚ cids →
  let t := events (RmBlocks fs lock pins cids opts) w in
  Hash <$> sent t ≡ₚ Cid_String <$> cids ∧
  length (sent t) = length cids ∧
  ∀ v, v ∈ sent t →
    (∃ r, r ∈ res ∧ Pinned_Pinned r = true ∧
          (Has w (sibling fs blocks) (Key r)).1 = false ∧ v = rejection r) ∨
    (∃ c e, (blocks, c, Some e) ∈ deleted t ∧
            v = {| Hash := Cid_String c; Error := error_Error e |}) ∨
    (∃ c, (blocks, c, None) ∈ deleted t ∧
          v = {| Hash := Cid_String c; Error := "" |}).
Proof.
  intros Hsw Hq Hf Hres Hperm t. subst t.
  rewrite (sent_ok _ _ _ _ _ blocks res), (deleted_ok _ _ _ _ _ blocks res) by done.
  set (log := (delete_run w blocks
                 (Key <$> filter (λ r, deletable w fs blocks r) res)).2).
  assert (omap (λ ce, body_outcome opts ce.1 ce.2) log
          = (λ ce : Cid * option error,
               {| Hash := Cid_String ce.1;
                  Error := if ce.2 is Some e then error_Error e else "" |})
            <$> log) as Hall.
  { clearbody log. clear -Hq Hf.
    induction log as [|[c [e|]] log IH]; [done|..]; csimpl;
      rewrite IH; unfold body_outcome; by rewrite ?Hq, ?Hf. }
  assert (Hash <$> ((rejection <$> filter (λ r, ¬ deletable w fs blocks r) res)
                    ++ omap (λ ce, body_outcome opts ce.1 ce.2) log)
          ≡ₚ Cid_String <$> cids) as Hhashes.
  { rewrite <- Hperm.
    trans ((Cid_String ∘ Key <$> filter (λ r, ¬ deletable w fs blocks r) res)
           ++ (Cid_String ∘ Key <$> filter (λ r, deletable w fs blocks r) res)).
    - rewrite Hall, fmap_app, <- !list_fmap_compose.
      apply Permutation_app; [done|].
      trans (Cid_String <$> log.*1); [by rewrite <- list_fmap_compose|].
      subst log. by rewrite delete_run_cids, <- list_fmap_compose.
    - rewrite Permutation_app_comm, <- fmap_app, filter_app_complement.
      by rewrite list_fmap_compose. }
  split; [done|]. split.
  { apply Permutation_length in Hhashes. by rewrite !length_fmap in Hhashes. }
  intros v Hv. apply elem_of_app in Hv as [Hv|Hv].
  - left. apply list_elem_of_fmap in Hv as (r & -> & Hr).
    apply list_elem_of_filter in Hr as [Hd Hr]. exists r.
    unfold deletable in Hd. apply Is_true_false in Hd.
    apply orb_false_iff in Hd as [Hp Hhas]. apply negb_false_iff in Hp.
    done.
  - right. rewrite Hall in Hv.
    apply list_elem_of_fmap in Hv as ([c [e|]] & -> & Hlog); [left|right].
    + exists c, e. split; [|done]. apply list_elem_of_fmap. by exists (c, Some e).
    + exists c. split; [|done]. apply list_elem_of_fmap. by exists (c, None).
Qed.

End filestore_facts.

(** * Facts about package commands *)

Section commands_facts.
Import filestore commands.
Context `{CmdExtern}.

Implicit Types (req : Request) (re : ResponseEmitter) (w : World)
  (hashes : list string) (cids : list Cid).

Lemma set_error_head re err code logged :
  ∃ rest, set_error re err code logged = CmdSetError err code :: rest ∧
          (rest = [] ∨ rest = [CmdLogError logged]).
Proof. unfold set_error. destruct (SetError re err code); eauto. Qed.

Lemma set_error_elem re err code logged (ev : cmd_event) :
  ev ∈ set_error re err code logged →
  ev = CmdSetError err code ∨ ev = CmdLogError logged.
Proof.
  unfold set_error. destruct (SetError re err code);
    rewrite ?elem_of_cons, ?elem_of_nil; tauto.
Qed.

(** ** ipfs add *)

(** C5, as the code has it.  With [nocopy] given and [raw-leaves] given as
    false, [AddCmd.Run] sets an error and does not start the walk over the
    input; when the node and its configuration load and the filestore is
    enabled, the error is "nocopy option requires '--raw-leaves' to be
    enabled as well". *)
Theorem AddCmd_nocopy_raw_leaves_off req re e1 e2 found :
  Option_Bool req noCopyOptionName = (true, found, e1) →
  Option_Bool req rawLeavesOptionName = (false, true, e2) →
  (∀ a h, CmdAdd a h ∉ AddCmd_Run req re) ∧
  (∃ err code rest, AddCmd_Run req re = CmdSetError err code :: rest) ∧
  (∀ n cfg, GetNode req = inl n → Repo_Config n = inl cfg →
     Experimental_FilestoreEnabled cfg = true →
     AddCmd_Run req re
     = set_error re
         (errorString "nocopy option requires '--raw-leaves' to be enabled as well")
         ErrNormal None).
Proof.
  intros Hnc Hraw. unfold AddCmd_Run.
  destruct (GetNode req) as [n|err].
  2:{ split; [|split].
      - intros a h Hin. by apply set_error_elem in Hin as [|].
      - destruct (set_error_head re err ErrNormal (Some err)) as (rest & -> & _).
        eauto.
      - done. }
  destruct (Repo_Config n) as [cfg|err] eqn:Hcfg.
  2:{ split; [|split].
      - intros a h Hin. by apply set_error_elem in Hin as [|].
      - destruct (set_error_head re err ErrNormal (Some err)) as (rest & -> & _).
        eauto.
      - intros ? ? [= <-] Hcfg'. congruence. }
  rewrite Hnc, Hraw.
  destruct (Option_Bool req progressOptionName) as [[progress ?] ?].
  destruct (Option_Bool req trickleOptionName) as [[trickle ?] ?].
  destruct (Option_Bool req wrapOptionName) as [[wrap ?] ?].
  destruct (Option_Bool req onlyHashOptionName) as [[hash ?] ?].
  destruct (Option_Bool req hiddenOptionName) as [[hidden ?] ?].
  destruct (Option_Bool req silentOptionName) as [[silent ?] ?].
  destruct (Option_String req chunkerOptionName) as [[chunker ?] ?].
  destruct (Option_Bool req pinOptionName) as [[dopin ?] ?].
  cbn [andb negb].
  destruct (Experimental_FilestoreEnabled cfg) eqn:Hen; cbn [negb].
  - split; [|split].
    + intros a h Hin. by apply set_error_elem in Hin as [|].
    + destruct (set_error_head re
        (errorString "nocopy option requires '--raw-leaves' to be enabled as well")
        ErrNormal None) as (rest & -> & _). eauto.
    + by intros ? ? _ _ _.
  - split; [|split].
    + intros a h Hin. by apply set_error_elem in Hin as [|].
    + destruct (set_error_head re
        (errorString "filestore is not enabled, see https://git.io/vy4XN")
        ErrClient None) as (rest & -> & _). eauto.
    + intros ? ? [= <-] Hcfg' Hen'. congruence.
Qed.

(** With [nocopy] given and [raw-leaves] not given, raw leaves are turned
    on: an adder that is started has both. *)
Lemma AddCmd_nocopy_turns_raw_leaves_on req re rawblks e1 e2 found a h :
  Option_Bool req noCopyOptionName = (true, found, e1) →
  Option_Bool req rawLeavesOptionName = (rawblks, false, e2) →
  CmdAdd a h ∈ AddCmd_Run req re →
  RawLeaves a = true ∧ NoCopy a = true.
Proof.
  intros Hnc Hraw. unfold AddCmd_Run.
  destruct (GetNode req) as [n|err];
    [|intros Hin; by apply set_error_elem in Hin as [|]].
  destruct (Repo_Config n) as [cfg|err];
    [|intros Hin; by apply set_error_elem in Hin as [|]].
  rewrite Hnc, Hraw.
  destruct (Option_Bool req progressOptionName) as [[progress ?] ?].
  destruct (Option_Bool req trickleOptionName) as [[trickle ?] ?].
  destruct (Option_Bool req wrapOptionName) as [[wrap ?] ?].
  destruct (Option_Bool req onlyHashOptionName) as [[hash ?] ?].
  destruct (Option_Bool req hiddenOptionName) as [[hidden ?] ?].
  destruct (Option_Bool req silentOptionName) as [[silent ?] ?].
  destruct (Option_String req chunkerOptionName) as [[chunker ?] ?].
  destruct (Option_Bool req pinOptionName) as [[dopin ?] ?].
  cbn [andb negb].
  destruct (Experimental_FilestoreEnabled cfg); cbn [negb];
    [|intros Hin; by apply set_error_elem in Hin as [|]].
  destruct (if hash then core_NewNode else inl n) as [n'|err];
    [|intros Hin; by apply set_error_elem in Hin as [|]].
  destruct coreunix_NewAdder as [err|];
    [intros Hin; by apply set_error_elem in Hin as [|]|].
  destruct (if hash then mfs_NewRoot else None) as [err|];
    [intros Hin; by apply set_error_elem in Hin as [|]|].
  intros Hin. apply list_elem_of_singleton in Hin. by injection Hin as -> ->.
Qed.

(** ** ipfs block rm *)

Lemma decode_range_bad hashes hash e cids :
  hash ∈ hashes → cid_Decode hash = inr e →
  ∃ pre bad post e',
    hashes = pre ++ bad :: post ∧
    Forall (λ h, ∃ c, cid_Decode h = inl c) pre ∧
    cid_Decode bad = inr e' ∧
    decode_range hashes cids = inl (bad, e').
Proof.
  intros Hin He. revert cids.
  induction hashes as [|h hashes IH]; intros cids; [by apply elem_of_nil in Hin|].
  cbn [decode_range]. destruct (cid_Decode h) as [c|e'] eqn:Hh.
  - apply elem_of_cons in Hin as [->|Hin]; [congruence|].
    destruct (IH Hin (cids ++ [c])) as (pre & bad & post & e'' & -> & Hpre & Hbad & Hrun).
    exists (h :: pre), bad, post, e''. repeat split; try done.
    constructor; eauto.
  - exists [], h, hashes, e'. repeat split; try done.
Qed.

Lemma decode_range_good hashes cids :
  Forall (λ h, ∃ c, cid_Decode h = inl c) hashes →
  ∃ cids', decode_range hashes cids = inr (cids ++ cids') ∧
           Forall2 (λ h c, cid_Decode h = inl c) hashes cids'.
Proof.
  intros Hall. revert cids. induction Hall as [|h hashes [c Hc] _ IH]; intros cids.
  - exists []. by rewrite app_nil_r.
  - cbn [decode_range]. rewrite Hc.
    destruct (IH (cids ++ [c])) as (cids' & -> & Hall').
    exists (c :: cids'). rewrite <- app_assoc. split; [done|]. by constructor.
Qed.

(** When every argument decodes and the node is there, the command does
    call [util.RmBlocks], with the decoded CIDs in the order of the
    arguments. *)
Lemma blockRm_all_decodable req re w n :
  GetNode req = inl n →
  Forall (λ h, ∃ c, cid_Decode h = inl c) (Arguments req) →
  ∃ cids opts rest,
    Forall2 (λ h c, cid_Decode h = inl c) (Arguments req) cids ∧
    Quiet opts = (Option_Bool req "quiet").1.1 ∧
    Force opts = (Option_Bool req "force").1.1 ∧
    (blockRmCmd_Run req re w).2 = CmdRmBlocks cids opts :: rest.
Proof.
  intros Hn Hall. unfold blockRmCmd_Run. rewrite Hn.
  destruct (Option_Bool req "force") as [[force ?] ?].
  destruct (Option_Bool req "quiet") as [[quiet ?] ?].
  destruct (decode_range_good _ [] Hall) as (cids & -> & Hcids).
  rewrite app_nil_l.
  destruct (util_RmBlocks w cids _) as [w' [err|]];
    exists cids, {| Prefix := ""; Quiet := quiet; Force := force |};
    by eexists.
Qed.

(** C9. When one of the arguments of [block rm] does not decode as a CID,
    the command sets an error of type [ErrNormal] and returns: it does not
    call [util.RmBlocks] on any of the arguments, emits nothing and leaves
    the world as it was.  When the node is there, the error is
    "invalid content id: ..." for the first argument that does not decode,
    with the text of the decoder's error. *)
Theorem blockRm_undecodable_argument req re w hash e :
  hash ∈ Arguments req →
  cid_Decode hash = inr e →
  let '(w', evs) := blockRmCmd_Run req re w in
  w' = w ∧
  (∀ cids opts, CmdRmBlocks cids opts ∉ evs) ∧
  (CmdEmitChan ∉ evs) ∧
  (∃ err rest, evs = CmdSetError err ErrNormal :: rest) ∧
  (∀ n, GetNode req = inl n →
     ∃ pre bad post e',
       Arguments req = pre ++ bad :: post ∧
       Forall (λ h, ∃ c, cid_Decode h = inl c) pre ∧
       cid_Decode bad = inr e' ∧
       let err := errorString ("invalid content id: " +:+ bad +:+ " ("
                               +:+ error_Error e' +:+ ")") in
       evs = set_error re err ErrNormal (Some err)).
Proof.
  intros Hin He. unfold blockRmCmd_Run.
  destruct (GetNode req) as [n|err].
  2:{ split; [done|]. split; [|split; [|split]].
      - intros cids opts Hev. by apply set_error_elem in Hev as [|].
      - intros Hev. by apply set_error_elem in Hev as [|].
      - destruct (set_error_head re err ErrNormal (Some err)) as (rest & -> & _).
        eauto.
      - done. }
  destruct (Option_Bool req "force") as [[force ?] ?].
  destruct (Option_Bool req "quiet") as [[quiet ?] ?].
  destruct (decode_range_bad _ _ _ [] Hin He)
    as (pre & bad & post & e' & Hargs & Hpre & Hbad & ->).
  split; [done|]. split; [|split; [|split]].
  - intros cids opts Hev. by apply set_error_elem in Hev as [|].
  - intros Hev. by apply set_error_elem in Hev as [|].
  - match goal with |- context [set_error re ?err ErrNormal ?l] =>
      destruct (set_error_head re err ErrNormal l) as (rest & -> & _) end.
    eauto.
  - intros _ _. by exists pre, bad, post, e'.
Qed.

End commands_facts.

(** * The facts at work on a node *)

Section on_a_node.
Import filestore commands.
#[local] Existing Instance mem.extern.
#[local] Existing Instance mem.cmd_extern.

(** "Qa" is pinned and held by the file manager only; "Qb" is in the file
    manager too; "Qc" is nowhere. *)
Lemma RmBlocks_delete_failure_witness :
  let t := events (RmBlocks mem.fs mem.lock
                     (mem.pinner {[ "Qa" := "pinned: recursive" ]})
                     ["Qa"; "Qb"; "Qc"] (mem.opts "/filestore" false true))
             (mem.node ["Qa"; "Qb"] []) in
  ("Qc", Some bs_ErrNotFound, None) ∈ per_delete t ∧
  (Force (mem.opts "/filestore" false true) = true →
   (None : option RemovedBlock) = None).
Proof.
  intros t.
  assert (("Qc", Some bs_ErrNotFound, None) ∈ per_delete t) as Hin
    by (vm_compute; right; left).
  split; [exact Hin|].
  exact (proj1 (proj1 (RmBlocks_delete_failure _ _ _ _ _ _ _ _ _ Hin)
                  (or_introl eq_refl))).
Defined.

Lemma RmBlocks_unknown_prefix_witness :
  RmBlocks mem.fs mem.lock (mem.pinner ∅) ["Qa"] (mem.opts "/bogus" false false)
    {| world := mem.node ["Qa"] []; trace := [] |}
  = ({| world := mem.node ["Qa"] []; trace := [] |},
     Returned (None, Some (errorString ("Unknown prefix: /bogus" +:+ LF)))).
Proof.
  apply (RmBlocks_unknown_prefix mem.fs mem.lock (mem.pinner ∅) ["Qa"]
           (mem.opts "/bogus" false false)); discriminate.
Defined.

Lemma RmBlocks_empty_request_send_blocks_witness :
  let '(s, r) :=
    exec (RmBlocks mem.fs mem.lock
            (mem.failing_pinner (errorString "pin store unreadable")) []
            (mem.opts "/filestore" false false))
      (mem.node ["Qa"] []) in
  ∃ out, r = Returned (Some out, None) ∧
         chan_cap out = 0 ∧
         sends_under_lock false (trace s) = 1 ∧
         blocked_sends false 0 (trace s)
         = [{| Hash := "";
               Error := "pin check failed: pin store unreadable" |}].
Proof.
  exact (RmBlocks_empty_request_send_blocks mem.fs mem.lock
           (mem.failing_pinner (errorString "pin store unreadable"))
           (mem.opts "/filestore" false false) 1%positive []
           (errorString "pin store unreadable") (mem.node ["Qa"] [])
           eq_refl eq_refl).
Defined.

Lemma RmBlocks_pin_check_failed_witness :
  let '(s, r) :=
    exec (RmBlocks mem.fs mem.lock
            (mem.failing_pinner (errorString "pin store unreadable"))
            ["Qa"; "Qb"] (mem.opts "/blocks" false false))
      (mem.node ["Qa"] ["Qb"]) in
  sent (trace s)
  = [{| Hash := ""; Error := "pin check failed: pin store unreadable" |}] ∧
  deleted (trace s) = [] ∧
  world s = mem.node ["Qa"] ["Qb"].
Proof.
  pose proof (RmBlocks_pin_check_failed mem.fs mem.lock
           (mem.failing_pinner (errorString "pin store unreadable"))
           ["Qa"; "Qb"] (mem.opts "/blocks" false false) 2%positive []
           (errorString "pin store unreadable") (mem.node ["Qa"] ["Qb"])
           eq_refl eq_refl) as Hrun.
  cbv zeta in Hrun. destruct (exec _ _) as [s r].
  destruct Hrun as (_ & _ & Hs & Hd & Hw).
  exact (conj Hs (conj Hd Hw)).
Defined.

Lemma RmBlocks_each_cid_once_witness :
  let t := events (RmBlocks mem.fs mem.lock
                     (mem.pinner {[ "Qa" := "pinned: recursive" ]})
                     ["Qa"; "Qb"; "Qc"] (mem.opts "/filestore" false false))
             (mem.node ["Qa"; "Qb"] []) in
  Hash <$> sent t ≡ₚ ["Qa"; "Qb"; "Qc"] ∧ length (sent t) = 3.
Proof.
  intros t.
  pose proof (RmBlocks_each_cid_once mem.fs mem.lock
           (mem.pinner {[ "Qa" := "pinned: recursive" ]})
           ["Qa"; "Qb"; "Qc"] (mem.opts "/filestore" false false) 1%positive
           ((mem.pinner {[ "Qa" := "pinned: recursive" ]}).(CheckIfPinned)
              ["Qa"; "Qb"; "Qc"]).1
           (mem.node ["Qa"; "Qb"] [])
           eq_refl eq_refl eq_refl eq_refl (Permutation_refl _)) as [Hp [Hl _]].
  split; [exact Hp|exact Hl].
Defined.

Lemma AddCmd_nocopy_raw_leaves_off_witness :
  AddCmd_Run (mem.request [] [("nocopy", true); ("raw-leaves", false)]) mem.emitter
  = [CmdSetError
       (errorString "nocopy option requires '--raw-leaves' to be enabled as well")
       ErrNormal].
Proof.
  exact (proj2 (proj2 (AddCmd_nocopy_raw_leaves_off
           (mem.request [] [("nocopy", true); ("raw-leaves", false)])
           mem.emitter None None true eq_refl eq_refl))
         mem.ipfs_node mem.config eq_refl eq_refl eq_refl).
Defined.

(** With [nocopy] given and [raw-leaves] not given, so that its value is
    false, [AddCmd.Run] turns raw leaves on, sets no error and starts the
    walk over the input. *)
Lemma AddCmd_nocopy_alone_goes_ahead :
  let req := mem.request [] [("nocopy", true)] in
  Option_Bool req noCopyOptionName = (true, true, None) ∧
  Option_Bool req rawLeavesOptionName = (false, false, None) ∧
  AddCmd_Run req mem.emitter
  = [CmdAdd {| Chunker := ""; Progress := false; Hidden := false;
               Trickle := false; Wrap := false; Pin := true; Silent := false;
               RawLeaves := true; NoCopy := true |} false] ∧
  ∀ err code, CmdSetError err code ∉ AddCmd_Run req mem.emitter.
Proof.
  intros req. repeat split.
  intros err code Hin.
  change (AddCmd_Run req mem.emitter)
    with [CmdAdd {| Chunker := ""; Progress := false; Hidden := false;
                    Trickle := false; Wrap := false; Pin := true; Silent := false;
                    RawLeaves := true; NoCopy := true |} false] in Hin.
  apply list_elem_of_singleton in Hin. discriminate.
Qed.

Lemma blockRm_undecodable_argument_witness :
  let '(w', evs) :=
    blockRmCmd_Run (mem.request ["QmGood"; "bogus"; "QmAlso"] []) mem.emitter
      (mem.node [] ["QmGood"; "QmAlso"]) in
  w' = mem.node [] ["QmGood"; "QmAlso"] ∧
  (∀ cids opts, CmdRmBlocks cids opts ∉ evs) ∧
  (CmdEmitChan ∉ evs) ∧
  ∃ err rest, evs = CmdSetError err ErrNormal :: rest.
Proof.
  assert ("bogus" ∈ ["QmGood"; "bogus"; "QmAlso"]) as Hin by (right; left).
  pose proof (blockRm_undecodable_argument
           (mem.request ["QmGood"; "bogus"; "QmAlso"] []) mem.emitter
           (mem.node [] ["QmGood"; "QmAlso"]) "bogus"
           (errorString "selected encoding not supported") Hin eq_refl) as Hrun.
  destruct (blockRmCmd_Run _ _ _) as [w' evs].
  destruct Hrun as (Hw & Hrm & Hemit & Herr & _).
  exact (conj Hw (conj Hrm (conj Hemit Herr))).
Defined.

(** A run seen whole: "Qa" is rejected, "Qb" deleted, "Qc" not found. *)
Example RmBlocks_on_the_node :
  events (RmBlocks mem.fs mem.lock (mem.pinner {[ "Qa" := "pinned: recursive" ]})
            ["Qa"; "Qb"; "Qc"] (mem.opts "/filestore" false false))
    (mem.node ["Qa"; "Qb"] [])
  = let out := {| chan_cap := 3 |} in
    [EvGo; EvGCLock 3%positive;
     EvSend out {| Hash := "Qa"; Error := "pinned: recursive" |};
     EvDeleteBlock 1%positive "Qb" None;
     EvSend out {| Hash := "Qb"; Error := "" |};
     EvDeleteBlock 1%positive "Qc" (Some bs_ErrNotFound);
     EvSend out {| Hash := "Qc"; Error := "blockstore: block not found" |};
     EvUnlock 3%positive; EvClose out].
Proof. reflexivity. Qed.

(** The same request when the plain block store has "Qa" as well: the
    pinned block is deleted from the file manager. *)
Example RmBlocks_pinned_with_copy :
  deleted (events (RmBlocks mem.fs mem.lock
                     (mem.pinner {[ "Qa" := "pinned: recursive" ]})
                     ["Qa"] (mem.opts "/filestore" false false))
             (mem.node ["Qa"] ["Qa"]))
  = [(1%positive, "Qa", None)].
Proof. reflexivity. Qed.

(** A delete that fails with an I/O error is reported with [Force] too. *)
Example RmBlocks_broken_store_force :
  sent (events (RmBlocks mem.fs mem.lock (mem.pinner ∅)
                  ["Qa"] (mem.opts "/filestore" true true))
          (mem.node_broken_fm ["Qa"] []))
  = [{| Hash := "Qa"; Error := "input/output error" |}].
Proof. reflexivity. Qed.

Example AvailableElsewhere_on_the_node :
  let s := {| world := mem.node ["Qa"] ["Qb"]; trace := [] |} in
  AvailableElsewhere mem.fs 1%positive "Qb" s = (s, Returned true) ∧
  AvailableElsewhere mem.fs 1%positive "Qa" s = (s, Returned false) ∧
  AvailableElsewhere mem.fs 2%positive "Qa" s = (s, Returned true) ∧
  AvailableElsewhere mem.fs 3%positive "Qa" s
  = (s, Panicked "invalid pointer for foundIn").
Proof. repeat split; reflexivity. Qed.

Example blockRm_on_the_node :
  (blockRmCmd_Run (mem.request ["QmGood"; "QmAlso"] [("force", true)])
     mem.emitter (mem.node [] ["QmGood"])).2
  = [CmdRmBlocks ["QmGood"; "QmAlso"] (mem.opts "" false true); CmdEmitChan].
Proof. reflexivity. Qed.

End on_a_node.

(** * More facts about package filestore *)

Section filestore_more.
Import filestore.
Context `{Extern}.

Implicit Types (fs : Filestore) (pins : Pinner) (opts : RmBlocksOpts)
  (cids cs : list Cid) (res : list Pinned) (t : list event) (s : St)
  (w : World) (out : chan) (lock blocks foundIn : ref).

(** X1. [RmBlocks] never panics: [AvailableElsewhere] is only ever asked
    about one of the two backends.  It returns a channel and no error when
    the prefix is known, and an error and no channel when it is not. *)
Theorem RmBlocks_returns fs lock pins cids opts w :
  (exec (RmBlocks fs lock pins cids opts) w).2
  = Returned (if RmBlocks_switch fs opts is Some _
              then (Some {| chan_cap := length cids |}, None)
              else (None, Some (errorString
                                  ("Unknown prefix: " +:+ Prefix opts +:+ LF)))).
Proof.
  destruct (RmBlocks_switch fs opts) as [blocks|] eqn:Hsw.
  - destruct (CheckIfPinned pins cids) as [res [e|]] eqn:Hres.
    + by rewrite (RmBlocks_failed _ _ _ _ _ blocks res e).
    + by rewrite (RmBlocks_ok _ _ _ _ _ blocks res).
  - unfold exec. by rewrite RmBlocks_no_backend.
Qed.

Lemma Forall_bodies out blocks opts (log : list (Cid * option error)) :
  Forall (λ e, (∃ v, e = EvSend out v) ∨ (∃ c err, e = EvDeleteBlock blocks c err))
    (flat_map (body_events out blocks opts) log).
Proof.
  induction log as [|[c err] log IH]; [constructor|].
  cbn [flat_map]. apply Forall_app. split; [|done].
  unfold body_events. cbn [fst snd]. constructor; [right; eauto|].
  destruct (body_outcome opts c err); repeat constructor; eauto.
Qed.

(** X2. A run with a known prefix starts the goroutine, takes the GC lock
    once, gives it back once and closes the channel last; between taking
    and giving back the lock there are only sends on the channel and calls
    of [DeleteBlock] on the chosen backend.  A run with an unknown prefix
    does nothing at all. *)
Theorem RmBlocks_lock_window fs lock pins cids opts w :
  let t := events (RmBlocks fs lock pins cids opts) w in
  let out := {| chan_cap := length cids |} in
  match RmBlocks_switch fs opts with
  | None => t = []
  | Some blocks =>
      ∃ mid, t = [EvGo; EvGCLock lock] ++ mid ++ [EvUnlock lock; EvClose out] ∧
             Forall (λ e, (∃ v, e = EvSend out v) ∨
                          (∃ c err, e = EvDeleteBlock blocks c err)) mid
  end.
Proof.
  intros t out. subst t.
  destruct (RmBlocks_switch fs opts) as [blocks|] eqn:Hsw;
    [|by apply events_unknown].
  destruct (CheckIfPinned pins cids) as [res [e|]] eqn:Hres.
  - rewrite (events_failed _ _ _ _ _ blocks res e) by done.
    eexists [_]. split; [done|]. repeat constructor. eauto.
  - unfold events. rewrite (RmBlocks_ok _ _ _ _ _ blocks res) by done.
    cbn [fst trace]. eexists (_ ++ _). rewrite <- app_assoc. split; [done|].
    apply Forall_app. split; [|apply Forall_bodies].
    apply Forall_fmap, Forall_forall. intros r _. left. by eexists.
Qed.

(** X3. The stream of a run whose pin check succeeds is the rejections of
    the pinned entries without a sibling copy, in the order of the pin
    check, followed by what the delete loop sends, in the order of the
    deletes: no rejection comes after a delete outcome. *)
Theorem RmBlocks_rejections_first fs lock pins cids opts blocks res w :
  RmBlocks_switch fs opts = Some blocks →
  CheckIfPinned pins cids = (res, None) →
  let t := events (RmBlocks fs lock pins cids opts) w in
  sent t = (rejection <$> filter (λ r, ¬ deletable w fs blocks r) res)
           ++ omap (λ d, d.2) (per_delete t).
Proof.
  intros Hsw Hres t. subst t.
  rewrite (sent_ok _ _ _ _ _ blocks res), (per_delete_ok _ _ _ _ _ blocks res)
    by done.
  f_equal. set (log := (delete_run _ _ _).2). clearbody log.
  induction log as [|[c err] log IH]; [done|]. csimpl. by rewrite IH.
Qed.

(** ** FilterPinned on its own *)

(** X4. [FilterPinned], asked about one of the two backends with a pin
    check that succeeds, changes no store and calls no [DeleteBlock]; the
    CIDs it returns are entries of the pin check, in their order, and each
    entry is either returned or answered with one outcome. *)
Theorem FilterPinned_splits fs pins out cids foundIn res s :
  known fs foundIn →
  CheckIfPinned pins cids = (res, None) →
  let '(s', r) := FilterPinned fs pins out cids foundIn s in
  ∃ stillOkay,
    r = Returned stillOkay ∧
    world s' = world s ∧
    deleted (trace s') = deleted (trace s) ∧
    stillOkay `sublist_of` (Key <$> res) ∧
    length stillOkay + length (sent (trace s'))
    = length res + length (sent (trace s)).
Proof.
  intros Hk Hres. rewrite (FilterPinned_ok _ _ _ _ _ res) by done.
  eexists. split; [done|]. cbn [world trace]. split; [done|].
  rewrite list_fmap_compose, deleted_app, sent_app, deleted_sends, sent_sends.
  rewrite app_nil_r. split; [done|]. split.
  - apply fmap_sublist, sublist_filter.
  - rewrite length_app, !length_fmap.
    pose proof (length_filter_split (λ r, deletable (world s) fs foundIn r) res).
    lia.
Qed.

Lemma FilterPinned_range_unpinned fs out foundIn res (acc : list Cid) s :
  Forall (λ r, Pinned_Pinned r = false) res →
  FilterPinned_range fs out foundIn res acc s
  = (s, Returned (acc ++ (Key <$> res))).
Proof.
  intros Hall. revert acc. induction Hall as [|r res Hr _ IH]; intros acc.
  - cbn. by rewrite app_nil_r.
  - cbn [FilterPinned_range]. rewrite bind_run, Hr. cbn [negb].
    unfold mret at 1, M_ret, ret. rewrite IH. csimpl. by rewrite <- app_assoc.
Qed.

(** X5. [FilterPinned] asked about an object that is neither backend: as
    long as no entry of the pin check is pinned it returns every CID of
    the pin check and sends nothing; at the first pinned entry it panics,
    having sent nothing and changed nothing. *)
Theorem FilterPinned_unknown_backend fs pins out cids foundIn res s :
  fm fs ≠ foundIn → bs fs ≠ foundIn →
  CheckIfPinned pins cids = (res, None) →
  (Forall (λ r, Pinned_Pinned r = false) res →
     FilterPinned fs pins out cids foundIn s = (s, Returned (Key <$> res))) ∧
  (∀ r, r ∈ res → Pinned_Pinned r = true →
     FilterPinned fs pins out cids foundIn s
     = (s, Panicked "invalid pointer for foundIn")).
Proof.
  intros Hfm Hbs Hres. unfold FilterPinned. rewrite Hres. split.
  - intros Hall. by rewrite FilterPinned_range_unpinned.
  - intros r Hr Hp. clear Hres. generalize (@nil Cid). revert Hr.
    induction res as [|r' res IH]; intros Hr acc; [by apply elem_of_nil in Hr|].
    cbn [FilterPinned_range]. rewrite bind_run.
    destruct (Pinned_Pinned r') eqn:Hp'; cbn [negb].
    + unfold AvailableElsewhere. by rewrite !decide_False by done.
    + unfold mret at 1, M_ret, ret. apply IH.
      apply elem_of_cons in Hr as [->|Hr]; [congruence|done].
Qed.

End filestore_more.

(** * Facts about the block commands *)

Section block_cmd_facts.
Import commands block_cmd.
Context `{BlockExtern}.

Implicit Types (req : Request) (re : ResponseEmitter) (cre : CliEmitter)
  (res : Response) (w : World) (r : filestore.RemovedBlock)
  (rs : list filestore.RemovedBlock).

(** ** block rm on the command line *)

Lemma PostRun_for_reports cre res rs rest someFailed :
  Forall (λ r, aborts r = false) rs →
  blockRm_PostRun_for cre res ((is_RemovedBlock <$> rs) ++ rest) someFailed
  = ((report <$> rs)
     ++ (blockRm_PostRun_for cre res rest (someFailed || existsb failed rs)).1,
     (blockRm_PostRun_for cre res rest (someFailed || existsb failed rs)).2).
Proof.
  intros Hall. revert someFailed.
  induction Hall as [|r rs Hr _ IH]; intros someFailed.
  - csimpl. rewrite orb_false_r. by destruct (blockRm_PostRun_for _ _ _ _).
  - csimpl. unfold aborts in Hr. rewrite Hr. unfold report, failed.
    destruct (negb (String.eqb (filestore.Error r) "")) eqn:Hf; rewrite IH; cbn.
    + by rewrite orb_true_r.
    + done.
Qed.

(** X6. A stream of outcomes none of which has an error without a hash,
    ended by [io.EOF]: [block rm] prints "removed ..." on standard output
    for every outcome without error and "cannot remove ...: ..." on
    standard error for every other, in the order of the stream; it sets
    the error "some blocks not removed" exactly when some outcome had an
    error, and closes the emitter last. *)
Theorem blockRm_PostRun_reports cre res rs :
  Next_values res = is_RemovedBlock <$> rs →
  Forall (λ r, aborts r = false) rs →
  Next_error res = io_EOF →
  blockRm_PostRun cre res
  = (report <$> rs)
    ++ (if existsb failed rs then some_not_removed cre else [])
    ++ [CliClose].
Proof.
  intros Hvals Hall Heof. unfold blockRm_PostRun. rewrite Hvals.
  rewrite <- (app_nil_r (is_RemovedBlock <$> rs)).
  rewrite PostRun_for_reports by done. cbn. rewrite Heof. cbn.
  rewrite app_nil_r. by destruct (existsb failed rs).
Qed.

(** X7. An outcome with an error and no hash ends the reading: what comes
    before it is reported line by line, "aborted: ..." is printed, the
    error "some blocks not removed" is set and the emitter closed,
    whatever the stream holds after it. *)
Theorem blockRm_PostRun_aborted cre res rs r rest :
  Next_values res = (is_RemovedBlock <$> rs) ++ is_RemovedBlock r :: rest →
  Forall (λ r, aborts r = false) rs →
  aborts r = true →
  blockRm_PostRun cre res
  = (report <$> rs)
    ++ [Stderr ("aborted: " +:+ filestore.Error r +:+ LF)]
    ++ some_not_removed cre ++ [CliClose].
Proof.
  intros Hvals Hall Hab. unfold blockRm_PostRun. rewrite Hvals.
  rewrite PostRun_for_reports by done. cbn.
  unfold aborts in Hab. rewrite Hab. cbn. by rewrite <- !app_assoc.
Qed.

(** X8. When the stream ends with an error that is not [io.EOF], that
    error is passed on and "some blocks not removed" is not set, even if
    some of the outcomes read before had an error. *)
Theorem blockRm_PostRun_stream_error cre res rs :
  Next_values res = is_RemovedBlock <$> rs →
  Forall (λ r, aborts r = false) rs →
  Next_error res ≠ io_EOF →
  blockRm_PostRun cre res = (report <$> rs) ++ passed_on cre res ++ [CliClose].
Proof.
  intros Hvals Hall Heof. unfold blockRm_PostRun. rewrite Hvals.
  rewrite <- (app_nil_r (is_RemovedBlock <$> rs)).
  rewrite PostRun_for_reports by done. cbn. unfold passed_on.
  destruct (Next_error res); [done|..]; cbn; unfold cli_set_error;
    by rewrite <- !app_assoc.
Qed.

Lemma PostRun_for_no_close cre res vs someFailed :
  CliClose ∉ (blockRm_PostRun_for cre res vs someFailed).1.
Proof.
  revert someFailed. induction vs as [|[r|type] vs IH]; intros someFailed.
  - cbn. destruct (Next_error res); cbn;
      repeat (match goal with |- context [cli_SetError ?a ?b ?c] =>
                destruct (cli_SetError a b c) end);
      rewrite ?not_elem_of_cons; repeat split; try done; apply not_elem_of_nil.
  - cbn. destruct (_ && _); [|destruct (negb _)].
    + cbn. rewrite not_elem_of_cons. split; [done|apply not_elem_of_nil].
    + specialize (IH true). destruct (blockRm_PostRun_for cre res vs true).
      cbn in *. rewrite not_elem_of_cons. by split.
    + specialize (IH someFailed).
      destruct (blockRm_PostRun_for cre res vs someFailed).
      cbn in *. rewrite not_elem_of_cons. by split.
  - cbn. rewrite not_elem_of_cons. split; [done|apply not_elem_of_nil].
Qed.

(** X9. Whatever the stream, the goroutine of [block rm] closes the
    emitter once, as the last thing it does. *)
Theorem blockRm_PostRun_closes_last cre res :
  ∃ evs, blockRm_PostRun cre res = evs ++ [CliClose] ∧ CliClose ∉ evs.
Proof.
  unfold blockRm_PostRun.
  pose proof (PostRun_for_no_close cre res (Next_values res) false) as Hno.
  destruct (blockRm_PostRun_for cre res (Next_values res) false) as [evs how].
  cbn in Hno. eexists. rewrite app_assoc. split; [done|].
  rewrite not_elem_of_app. split; [done|].
  destruct how as [[|]|]; [|apply not_elem_of_nil..].
  destruct (cli_SetError cre _ _);
    rewrite ?not_elem_of_cons; repeat split; try done; apply not_elem_of_nil.
Qed.

(** X10. The outcome [RmBlocks] sends when the pin check fails is the one
    [block rm] reads as the end of the stream: fed with the outcomes of
    such a run, the CLI prints "aborted: pin check failed: ..." and sets
    the error "some blocks not removed". *)
Theorem RmBlocks_pin_check_failure_aborts_cli
    (fs : filestore.Filestore) (lock : ref) (pins : filestore.Pinner)
    (cids : list Cid) (opts : filestore.RmBlocksOpts) blocks pinned e w cre res :
  filestore.RmBlocks_switch fs opts = Some blocks →
  filestore.CheckIfPinned pins cids = (pinned, Some e) →
  Next_values res
  = is_RemovedBlock <$>
      filestore.sent (filestore.events (filestore.RmBlocks fs lock pins cids opts) w) →
  blockRm_PostRun cre res
  = [Stderr ("aborted: pin check failed: " +:+ error_Error e +:+ LF)]
    ++ some_not_removed cre ++ [CliClose].
Proof.
  intros Hsw Hpin Hvals.
  rewrite (events_failed _ _ _ _ _ blocks pinned e) in Hvals by done.
  unfold blockRm_PostRun. rewrite Hvals. by cbn.
Qed.

(** ** block stat, block get *)


(** X12. [block stat] and [block get] of the same request go the same
    way: both panic (no argument), or both set the same error, or the one
    emits the size and the key of the block of which the other emits the
    data; and they leave the same world. *)
Theorem blockStat_blockGet_agree req re w :
  (blockStatCmd_Run req re w).1 = (blockGetCmd_Run req re w).1 ∧
  match (blockStatCmd_Run req re w).2, (blockGetCmd_Run req re w).2 with
  | filestore.Panicked m1, filestore.Panicked m2 => m1 = m2 ∧ Arguments req = []
  | filestore.Returned evs1, filestore.Returned evs2 =>
      (∃ err, evs1 = blk_set_error re err ErrNormal ∧ evs2 = evs1) ∨
      (∃ b, evs1 = blk_emit re (BlkEmitStat
                     {| Key := Cid_String (Block_Cid b);
                        Size := Z.of_nat (length (RawData b)) |}) ∧
            evs2 = blk_emit re (BlkEmitData (RawData b)))
  | _, _ => False
  end.
Proof.
  unfold blockStatCmd_Run, blockGetCmd_Run, Arguments_0.
  destruct (Arguments req) as [|skey args]; [done|].
  destruct (getBlockForKey req skey w) as [w' [b|err]]; cbn; eauto.
Qed.

(** ** block put *)

Lemma blk_set_error_elem re err code (ev : block_event) :
  ev ∈ blk_set_error re err code →
  ev = BlkSetError err code ∨ ev = BlkLogError (Some err).
Proof.
  unfold blk_set_error. destruct (SetError re err code);
    rewrite ?elem_of_cons, ?elem_of_nil; tauto.
Qed.

Lemma blk_emit_elem re (ev' ev : block_event) :
  ev ∈ blk_emit re ev' → ev = ev' ∨ ∃ err, ev = BlkLogError (Some err).
Proof.
  unfold blk_emit. destruct (Emit re) as [err|];
    rewrite ?elem_of_cons, ?elem_of_nil; [|tauto].
  intros [->|[->|[]]]; eauto.
Qed.

Ltac blk_not_in :=
  repeat match goal with
  | Hin : _ ∈ blk_set_error _ _ _ |- _ =>
      apply blk_set_error_elem in Hin as [Hin|Hin]; try discriminate Hin
  | Hin : _ ∈ blk_emit _ _ |- _ =>
      apply blk_emit_elem in Hin as [Hin|[? Hin]]; try discriminate Hin
  | Hin : _ ∈ _ :: _ |- _ =>
      apply elem_of_cons in Hin as [Hin|Hin]; try discriminate Hin
  end.

(** X13. [block put] stores nothing before everything is checked: a
    block reaches [AddBlock] only when the format is one of "cbor",
    "protobuf", "raw" and "v0", the hash function is in [mh.Names], and
    the block is the one made from the data read and the CID summed with
    the prefix these options give, whose version is 0 for "v0" and 1
    otherwise; a run that does not reach [AddBlock] leaves the world as
    it was. *)
Theorem blockPut_checks_first req inp re w :
  let format := (Option_String req "format").1.1 in
  let mhtype := (Option_String req "mhtype").1.1 in
  let data := (ReadAll inp).1 in
  let '(w', evs) := blockPutCmd_Run req inp re w in
  (∀ b, BlkAddBlock b ∈ evs →
     ∃ version codec mhtval bcid,
       format_switch format = Some (version, codec) ∧
       (version = if String.eqb format "v0" then 0 else 1)%Z ∧
       mh_Names mhtype = Some mhtval ∧
       Prefix_Sum {| Version := version; Codec_ := codec; MhType := mhtval;
                     MhLength := (Option_mhlen inp).1.1 |} data = inl bcid ∧
       blocks_NewBlockWithCid data bcid = inl b ∧
       w' = (Blocks_AddBlock w b).1) ∧
  ((∀ b, BlkAddBlock b ∉ evs) → w' = w).
Proof.
  intros format mhtype data. subst format mhtype data.
  unfold blockPutCmd_Run.
  destruct (GetNode req) as [n|err]; [|split; [intros blk Hin; blk_not_in|done]].
  destruct (NextFile inp) as [err|]; [split; [intros blk Hin; blk_not_in|done]|].
  destruct (ReadAll inp) as [data [err|]];
    [split; [intros blk Hin; blk_not_in|done]|].
  destruct (file_Close inp) as [err|]; [split; [intros blk Hin; blk_not_in|done]|].
  destruct (Option_String req "format") as [[format ffound] ferr].
  destruct (format_switch format) as [[version codec]|] eqn:Hfmt;
    [|split; [intros blk Hin; blk_not_in|done]].
  destruct (Option_String req "mhtype") as [[mhtype mfound] merr].
  destruct (mh_Names mhtype) as [mhtval|] eqn:Hmh;
    [|split; [intros blk Hin; blk_not_in|done]].
  destruct (Option_mhlen inp) as [[mhlen lfound] [err|]];
    [split; [intros blk Hin; blk_not_in|done]|].
  cbn [fst snd].
  destruct (Prefix_Sum _ data) as [bcid|err] eqn:Hsum;
    [|split; [intros blk Hin; blk_not_in|done]].
  destruct (blocks_NewBlockWithCid data bcid) as [b|err] eqn:Hnew;
    [|split; [intros blk Hin; blk_not_in|done]].
  assert (version = if String.eqb format "v0" then 0 else 1)%Z as Hv.
  { unfold format_switch in Hfmt.
    destruct (String.eqb_spec format "cbor") as [->|]; [by injection Hfmt as <- _|].
    destruct (String.eqb_spec format "protobuf") as [->|];
      [by injection Hfmt as <- _|].
    destruct (String.eqb_spec format "raw") as [->|]; [by injection Hfmt as <- _|].
    destruct (String.eqb format "v0"); [by injection Hfmt as <- _|done]. }
  destruct (Blocks_AddBlock w b) as [w' [k|err]] eqn:Hadd; split.
  - intros b' Hin. apply elem_of_cons in Hin as [[= ->]|Hin]; [|blk_not_in].
    exists version, codec, mhtval, bcid. by rewrite Hadd.
  - intros Hno. destruct (Hno b). by left.
  - intros b' Hin. apply elem_of_cons in Hin as [[= ->]|Hin]; [|blk_not_in].
    exists version, codec, mhtval, bcid. by rewrite Hadd.
  - intros Hno. destruct (Hno b). by left.
Qed.

(** X14. Every run of [block put] ends in one of two ways: it sets one
    error and emits nothing, or it emits one [BlockStat] and sets no
    error; what it emits is the key [AddBlock] returned and the number of
    bytes read. *)
Theorem blockPut_error_or_stat req inp re w :
  let evs := (blockPutCmd_Run req inp re w).2 in
  (∃ err front, evs = front ++ blk_set_error re err ErrNormal ∧
                (front = [] ∨ ∃ b, front = [BlkAddBlock b]) ∧
                ∀ bs, BlkEmitStat bs ∉ evs) ∨
  (∃ b k, evs = BlkAddBlock b ::
                blk_emit re (BlkEmitStat
                  {| Key := Cid_String k;
                     Size := Z.of_nat (length (ReadAll inp).1) |}) ∧
          (Blocks_AddBlock w b).2 = inl k ∧
          ∀ err code, BlkSetError err code ∉ evs).
Proof.
  intros evs. subst evs. unfold blockPutCmd_Run.
  assert (∀ err w', ∃ err0 front,
            (w', blk_set_error re err ErrNormal).2
            = front ++ blk_set_error re err0 ErrNormal ∧
            (front = [] ∨ ∃ b, front = [BlkAddBlock b]) ∧
            ∀ bs, BlkEmitStat bs ∉ (w', blk_set_error re err ErrNormal).2) as Herr.
  { intros err w'. exists err, []. repeat split; [by left|].
    intros bs Hin. cbn in Hin. blk_not_in. }
  destruct (GetNode req) as [n|err]; [|left; apply Herr].
  destruct (NextFile inp) as [err|]; [left; apply Herr|].
  destruct (ReadAll inp) as [data [err|]]; [left; apply Herr|].
  destruct (file_Close inp) as [err|]; [left; apply Herr|].
  destruct (Option_String req "format") as [[format ffound] ferr].
  destruct (format_switch format) as [[version codec]|]; [|left; apply Herr].
  destruct (Option_String req "mhtype") as [[mhtype mfound] merr].
  destruct (mh_Names mhtype) as [mhtval|]; [|left; apply Herr].
  destruct (Option_mhlen inp) as [[mhlen lfound] [err|]]; [left; apply Herr|].
  destruct (Prefix_Sum _ data) as [bcid|err]; [|left; apply Herr].
  destruct (blocks_NewBlockWithCid data bcid) as [b|err]; [|left; apply Herr].
  destruct (Blocks_AddBlock w b) as [w' [k|err]] eqn:Hadd.
  - right. exists b, k. cbn [fst snd]. split; [done|]. split; [by rewrite Hadd|].
    intros err code Hin. blk_not_in.
  - left. exists err, [BlkAddBlock b]. cbn [fst snd].
    split; [done|]. split; [eauto|].
    intros bs Hin. blk_not_in.
Qed.

End block_cmd_facts.

(** * Facts about cat *)

Section cat_cmd_facts.
Import commands cat_cmd.
Context `{CatExtern}.

Implicit Types (req : Request) (re : ResponseEmitter) (node : IpfsNode)
  (paths : list string) (readers : list Reader).

Lemma uint64_add_add (a b c : Z) :
  uint64 (uint64 (a + uint64 b) + c) = uint64 (a + b + c).
Proof.
  unfold uint64. rewrite Z.add_mod_idemp_l by done.
  replace (a + b `mod` 2 ^ 64 + c)%Z with (a + c + b `mod` 2 ^ 64)%Z by lia.
  rewrite Z.add_mod_idemp_r by done. f_equal. lia.
Qed.

Lemma cat_range_all_open node paths readers readers0 length0 :
  all_open node paths readers →
  uint64 length0 = length0 →
  cat_range node paths readers0 length0
  = (CatOpen <$> paths,
     (readers0 ++ readers, uint64 (length0 + total_size readers), None)).
Proof.
  intros Hopen. revert readers0 length0.
  induction Hopen as [|fpath read paths readers Hcat _ IH]; intros readers0 length0 Hl.
  - cbn. by rewrite app_nil_r, Z.add_0_r, Hl.
  - cbn [cat_range]. rewrite Hcat.
    rewrite IH by (unfold uint64; by rewrite Z.mod_mod).
    csimpl. rewrite <- app_assoc. cbn [app total_size foldr].
    by rewrite uint64_add_add, Z.add_assoc.
Qed.

Lemma cat_range_failure node pre bad post readers e readers0 length0 :
  all_open node pre readers →
  coreunix_Cat node bad = inr e →
  cat_range node (pre ++ bad :: post) readers0 length0
  = (CatOpen <$> (pre ++ [bad]), ([], 0%Z, Some e)).
Proof.
  intros Hopen Hbad. revert readers0 length0.
  induction Hopen as [|fpath read paths readers Hcat _ IH]; intros readers0 length0.
  - cbn. by rewrite Hbad.
  - cbn [app cat_range]. by rewrite Hcat, IH.
Qed.

Lemma open_or_fail node paths :
  (∃ readers, all_open node paths readers) ∨
  (∃ pre bad post readers e,
     paths = pre ++ bad :: post ∧ all_open node pre readers ∧
     coreunix_Cat node bad = inr e).
Proof.
  induction paths as [|fpath paths IH]; [left; exists []; constructor|].
  destruct (coreunix_Cat node fpath) as [read|e] eqn:Hcat.
  - destruct IH as [[readers Hopen]|(pre & bad & post & readers & e & -> & Hopen & Hbad)].
    + left. exists (read :: readers). by constructor.
    + right. exists (fpath :: pre), bad, post, (read :: readers), e.
      repeat split; [|done]. by constructor.
  - right. exists [], fpath, paths, [], e. repeat split; [constructor|done].
Qed.

(** X15. When every path opens, [cat] returns the readers in the order of
    the paths and, as length, the sum of their sizes modulo 2^64, having
    opened each path once, in order. *)
Theorem cat_all_paths_open node paths readers :
  all_open node paths readers →
  cat node paths
  = (CatOpen <$> paths, (readers, uint64 (total_size readers), None)).
Proof.
  intros Hopen. unfold cat.
  by rewrite (cat_range_all_open _ _ readers) by done.
Qed.

(** X16. At the first path that does not open, [cat] gives up: it returns
    the error of that path with no reader and length 0, and the paths
    after it are not opened. *)
Theorem cat_first_failure node pre bad post readers e :
  all_open node pre readers →
  coreunix_Cat node bad = inr e →
  cat node (pre ++ bad :: post)
  = (CatOpen <$> (pre ++ [bad]), ([], 0%Z, Some e)).
Proof. intros Hopen Hbad. unfold cat. by apply (cat_range_failure _ _ _ _ readers). Qed.

(** X17. [CatCmd.Run] either sets one error, after which it neither sets
    a length nor emits nor closes the emitter, or it has opened every
    argument: then it sets the length to the sum of the sizes modulo 2^64,
    emits the readers in the order of the arguments and closes the
    emitter last.  Offline routing is set up first, on a node that is not
    online. *)
Theorem CatCmd_Run_shape req re :
  let evs := CatCmd_Run req re in
  (∃ front err,
     evs = front ++ cat_set_error re err ErrNormal ∧
     Forall (λ ev, ev = CatSetupOfflineRouting ∨ ∃ fpath, ev = CatOpen fpath) front) ∨
  (∃ node readers tail,
     GetNode req = inl node ∧
     all_open node (Arguments req) readers ∧
     evs = (if OnlineMode node then [] else [CatSetupOfflineRouting])
           ++ (CatOpen <$> Arguments req)
           ++ [CatSetLength (uint64 (total_size readers)); CatEmit readers]
           ++ tail ++ [CatClose] ∧
     Forall (λ ev, (∃ err, ev = CatSetError err ErrNormal) ∨
                   (∃ err, ev = CatLogError err)) tail).
Proof.
  intros evs. subst evs. unfold CatCmd_Run.
  destruct (GetNode req) as [node|err]; [|left; by exists [], err].
  destruct (open_or_fail node (Arguments req))
    as [[readers Hopen]|(pre & bad & post & readers & e & Hargs & Hopen & Hbad)].
  - unfold cat. rewrite (cat_range_all_open _ _ readers) by done. cbn [app].
    assert (Forall (λ ev, (∃ err, ev = CatSetError err ErrNormal) ∨
                          (∃ err, ev = CatLogError err))
              match Emit re with
              | Some err =>
                  CatSetError err ErrNormal ::
                  match SetError re err ErrNormal with
                  | Some err' => [CatLogError (Some err')]
                  | None => []
                  end
              | None => []
              end) as Htail.
    { destruct (Emit re) as [err|]; [|constructor].
      constructor; [left; eauto|].
      destruct (SetError re err ErrNormal); [|constructor].
      constructor; [right; eauto|constructor]. }
    destruct (OnlineMode node) eqn:Hon; cbn [negb].
    + right. exists node, readers. eexists. rewrite Hon. by repeat split.
    + destruct (SetupOfflineRouting node) as [err|].
      * left. exists [CatSetupOfflineRouting], err. split; [done|].
        repeat constructor.
      * right. exists node, readers. eexists. rewrite Hon. by repeat split.
  - unfold cat. rewrite Hargs, (cat_range_failure _ _ _ _ readers e) by done.
    assert (Forall (λ ev, ev = CatSetupOfflineRouting ∨ ∃ fpath, ev = CatOpen fpath)
              (CatOpen <$> pre ++ [bad])) as Hfront.
    { apply Forall_fmap, Forall_forall. intros fpath _. right. by eexists. }
    destruct (OnlineMode node); cbn [negb].
    + left. exists (CatOpen <$> pre ++ [bad]), e. by split.
    + destruct (SetupOfflineRouting node) as [err|].
      * left. exists [CatSetupOfflineRouting], err. split; [done|].
        repeat constructor.
      * left. exists (CatSetupOfflineRouting :: (CatOpen <$> pre ++ [bad])), e.
        split; [done|]. constructor; [by left|done].
Qed.

(** ** cat on the command line *)

(** X28. [CatCmd.PostRun] copies the response as it is when its length is
    known and under 8 MiB, and then leaves the closing of the emitter to
    [cmds.Copy]; in every other case (length 0 or at least 8 MiB) it
    closes the emitter itself, last, and starts a progress bar exactly
    when the first value of the response is a reader, which it then
    emits. *)
Theorem CatCmd_PostRun_threshold (cre : CatCliEmitter) (res : CatResponse) :
  let evs := CatCmd_PostRun cre res in
  let small := (0 < res_Length res < 8388608)%Z in
  (small → ∃ tail, evs = CliCopy :: tail ∧ (CliClose ∉ evs) ∧
                   (CliBarStart ∉ evs) ∧ ∀ r, CliEmit r ∉ evs) ∧
  (¬ small →
     (CliCopy ∉ evs) ∧
     (∃ front, evs = front ++ [CliClose] ∧ CliClose ∉ front) ∧
     (∀ r, res_Next res = next_Reader r ↔ CliEmit r ∈ evs) ∧
     (CliBarStart ∈ evs ↔ ∃ r, res_Next res = next_Reader r)).
Proof.
  intros evs small. subst evs small. unfold CatCmd_PostRun, progressBarMinSize.
  change (1024 * 1024 * 8)%Z with 8388608%Z. split.
  - intros [Hlo Hhi].
    assert ((0 <? res_Length res)%Z && (res_Length res <? 8388608)%Z = true)
      as -> by lia.
    eexists. split; [done|].
    destruct (cmds_Copy res); [destruct (cli_SetError_fails cre)|].
    all: split; [|split; [|intros r]].
    all: rewrite ?not_elem_of_cons; repeat split; try done.
    all: apply not_elem_of_nil.
  - intros Hbig.
    assert ((0 <? res_Length res)%Z && (res_Length res <? 8388608)%Z = false)
      as -> by lia.
    destruct (res_Next res) as [r|type| |err];
      [destruct (cli_Emit cre)|destruct (cli_SetError_fails cre)..].
    all: cbn [app].
    all: split; [rewrite ?not_elem_of_cons; repeat split; try done;
                 apply not_elem_of_nil|].
    all: split;
      [match goal with |- ∃ front, ?l = _ ∧ _ => exists (removelast l) end;
       split; [reflexivity|]; cbn [removelast];
       rewrite ?not_elem_of_cons; repeat split; try done; apply not_elem_of_nil|].
    all: split; [intros r'|]; rewrite ?elem_of_cons, ?elem_of_nil.
    all: split; [intros Hr|intros Hr].
    all: try (destruct Hr as [r' Hr]).
    all: try discriminate.
    all: try (injection Hr as ->).
    all: intuition (try discriminate; try congruence; eauto).
Qed.

End cat_cmd_facts.

(** * Facts about the helper of the response test *)

Section response_test_facts.
Import response_test.

Lemma Replace_char (a : Ascii.ascii) (s : string) :
  strings_Replace_all s (String a EmptyString) ""
  = keep (λ c, negb (Ascii.eqb c a)) s.
Proof.
  unfold strings_Replace_all. induction s as [|c s IH]; [done|].
  cbn [strings_Replace_from keep String.prefix String.length Nat.sub].
  destruct (Ascii.ascii_dec a c) as [->|Hne].
  - rewrite Ascii.eqb_refl. cbn [negb]. rewrite IH. by destruct s.
  - assert (Ascii.eqb c a = false) as -> by (apply Ascii.eqb_neq; congruence).
    cbn [negb]. by rewrite IH.
Qed.

Lemma keep_keep (f g : Ascii.ascii → bool) (s : string) :
  keep f (keep g s) = keep (λ c, g c && f c) s.
Proof.
  induction s as [|c s IH]; [done|]. cbn [keep].
  destruct (g c); cbn [andb keep]; [|done]. destruct (f c); by rewrite IH.
Qed.

Lemma keep_ext (f g : Ascii.ascii → bool) (s : string) :
  (∀ c, f c = g c) → keep f s = keep g s.
Proof.
  intros Hfg. induction s as [|c s IH]; [done|]. cbn [keep].
  by rewrite Hfg, IH.
Qed.

Lemma keep_app (f : Ascii.ascii → bool) (s1 s2 : string) :
  keep f (s1 +:+ s2) = keep f s1 +:+ keep f s2.
Proof.
  induction s1 as [|c s1 IH]; [done|]. simpl.
  destruct (f c); simpl; by rewrite IH.
Qed.

Lemma removeWhitespace_keep (s : string) :
  removeWhitespace s = without_whitespace s.
Proof.
  unfold removeWhitespace, without_whitespace, TAB, LF, CR.
  rewrite !Replace_char, !keep_keep. apply keep_ext. intros c.
  unfold is_whitespace. rewrite !negb_orb. by rewrite !andb_assoc.
Qed.

(** X18. [removeWhitespace] keeps the characters that are neither space,
    tab, line feed nor carriage return, in their order, and drops the
    rest; so it changes nothing when applied a second time, and the
    result for two strings joined is the two results joined. *)
Theorem removeWhitespace_drops_whitespace (s s1 s2 : string) :
  removeWhitespace s = without_whitespace s ∧
  removeWhitespace (removeWhitespace s) = removeWhitespace s ∧
  removeWhitespace (s1 +:+ s2) = removeWhitespace s1 +:+ removeWhitespace s2.
Proof.
  rewrite !removeWhitespace_keep. unfold without_whitespace. repeat split.
  - rewrite keep_keep. apply keep_ext. intros c. by destruct (is_whitespace c).
  - apply keep_app.
Qed.

End response_test_facts.

(** * More facts about ipfs add *)

Section add_facts.
Import commands add_cli.
Context `{CmdExtern}.

Implicit Types (req : Request) (re : ResponseEmitter).

(** The adder [AddCmd.Run] starts has the options of the request in its
    fields; raw leaves are on when [nocopy] is given without
    [raw-leaves]. *)
Lemma AddCmd_Run_adder req re a h :
  CmdAdd a h ∈ AddCmd_Run req re →
  let nocopy := (Option_Bool req noCopyOptionName).1.1 in
  let rawblks := (Option_Bool req rawLeavesOptionName).1.1 in
  let rbset := (Option_Bool req rawLeavesOptionName).1.2 in
  AddCmd_Run req re = [CmdAdd a h] ∧
  h = (Option_Bool req onlyHashOptionName).1.1 ∧
  a = {| Chunker := (Option_String req chunkerOptionName).1.1;
         Progress := (Option_Bool req progressOptionName).1.1;
         Hidden := (Option_Bool req hiddenOptionName).1.1;
         Trickle := (Option_Bool req trickleOptionName).1.1;
         Wrap := (Option_Bool req wrapOptionName).1.1;
         Pin := (Option_Bool req pinOptionName).1.1;
         Silent := (Option_Bool req silentOptionName).1.1;
         RawLeaves := if nocopy && negb rbset then true else rawblks;
         NoCopy := nocopy |} ∧
  (nocopy = true → RawLeaves a = true).
Proof.
  unfold AddCmd_Run.
  destruct (GetNode req) as [n|err];
    [|intros Hin; by apply set_error_elem in Hin as [|]].
  destruct (Repo_Config n) as [cfg|err];
    [|intros Hin; by apply set_error_elem in Hin as [|]].
  destruct (Option_Bool req progressOptionName) as [[progress ?] ?].
  destruct (Option_Bool req trickleOptionName) as [[trickle ?] ?].
  destruct (Option_Bool req wrapOptionName) as [[wrap ?] ?].
  destruct (Option_Bool req onlyHashOptionName) as [[hash ?] ?].
  destruct (Option_Bool req hiddenOptionName) as [[hidden ?] ?].
  destruct (Option_Bool req silentOptionName) as [[silent ?] ?].
  destruct (Option_String req chunkerOptionName) as [[chunker ?] ?].
  destruct (Option_Bool req pinOptionName) as [[dopin ?] ?].
  destruct (Option_Bool req rawLeavesOptionName) as [[rawblks rbset] ?].
  destruct (Option_Bool req noCopyOptionName) as [[nocopy ?] ?].
  cbn [fst snd].
  destruct (nocopy && negb (Experimental_FilestoreEnabled cfg));
    [intros Hin; by apply set_error_elem in Hin as [|]|].
  destruct (nocopy && negb (if nocopy && negb rbset then true else rawblks))
    eqn:Hchk; [intros Hin; by apply set_error_elem in Hin as [|]|].
  destruct (if hash then core_NewNode else inl n) as [n'|err];
    [|intros Hin; by apply set_error_elem in Hin as [|]].
  destruct coreunix_NewAdder as [err|];
    [intros Hin; by apply set_error_elem in Hin as [|]|].
  destruct (if hash then mfs_NewRoot else None) as [err|];
    [intros Hin; by apply set_error_elem in Hin as [|]|].
  intros Hin. apply list_elem_of_singleton in Hin. injection Hin as -> ->.
  repeat split. intros ->. cbn in *. by apply negb_false_iff in Hchk.
Qed.



(** X20. With [nocopy] on a node whose filestore is not enabled,
    [AddCmd.Run] sets the client error "filestore is not enabled, ..." and
    starts no walk, whatever the other options are. *)
Theorem AddCmd_nocopy_filestore_disabled req re n cfg found e :
  GetNode req = inl n →
  Repo_Config n = inl cfg →
  Experimental_FilestoreEnabled cfg = false →
  Option_Bool req noCopyOptionName = (true, found, e) →
  AddCmd_Run req re
  = set_error re (errorString "filestore is not enabled, see https://git.io/vy4XN")
      ErrClient None.
Proof.
  intros Hn Hcfg Hen Hnc. unfold AddCmd_Run. rewrite Hn, Hcfg, Hnc, Hen.
  destruct (Option_Bool req progressOptionName) as [[progress ?] ?].
  destruct (Option_Bool req trickleOptionName) as [[trickle ?] ?].
  destruct (Option_Bool req wrapOptionName) as [[wrap ?] ?].
  destruct (Option_Bool req onlyHashOptionName) as [[hash ?] ?].
  destruct (Option_Bool req hiddenOptionName) as [[hidden ?] ?].
  destruct (Option_Bool req silentOptionName) as [[silent ?] ?].
  destruct (Option_String req chunkerOptionName) as [[chunker ?] ?].
  destruct (Option_Bool req pinOptionName) as [[dopin ?] ?].
  by destruct (Option_Bool req rawLeavesOptionName) as [[rawblks rbset] ?].
Qed.

(** ** Before the run *)

Lemma PreRun_request req sizeFile :
  let silenced := (Option_Bool req quietOptionName).1.1
                  || (Option_Bool req quieterOptionName).1.1
                  || (Option_Bool req silentOptionName).1.1 in
  let found := (Option_Bool req progressOptionName).1.2 in
  (AddCmd_PreRun req sizeFile).1.1
  = if silenced || found then req else SetOption req progressOptionName true.
Proof.
  unfold AddCmd_PreRun.
  destruct (Option_Bool req quietOptionName) as [[quiet ?] ?].
  destruct (Option_Bool req quieterOptionName) as [[quieter ?] ?].
  destruct (Option_Bool req silentOptionName) as [[silent ?] ?].
  cbn [fst snd]. destruct (quiet || quieter || silent); [done|].
  destruct (Option_Bool req progressOptionName) as [[progress found] ?].
  cbn [fst snd orb]. by destruct found, sizeFile as [[|]|].
Qed.

(** X21. [AddCmd.PreRun] never returns an error and touches one option
    only: when none of [quiet], [quieter] and [silent] is on and
    [progress] is not given, it sets [progress] to true; an explicit
    [progress] and every other option, the arguments and the node stay as
    they are. *)
Theorem AddCmd_PreRun_progress req sizeFile :
  let silenced := (Option_Bool req quietOptionName).1.1
                  || (Option_Bool req quieterOptionName).1.1
                  || (Option_Bool req silentOptionName).1.1 in
  let found := (Option_Bool req progressOptionName).1.2 in
  let req' := (AddCmd_PreRun req sizeFile).1.1 in
  (AddCmd_PreRun req sizeFile).2 = None ∧
  GetNode req' = GetNode req ∧
  Arguments req' = Arguments req ∧
  Option_String req' = Option_String req ∧
  (∀ name, name ≠ progressOptionName →
     Option_Bool req' name = Option_Bool req name) ∧
  Option_Bool req' progressOptionName
  = if silenced || found then Option_Bool req progressOptionName
    else (true, true, None).
Proof.
  intros silenced found req'. subst req'. rewrite PreRun_request.
  fold silenced found. split.
  - unfold AddCmd_PreRun.
    destruct (Option_Bool req quietOptionName) as [[quiet ?] ?].
    destruct (Option_Bool req quieterOptionName) as [[quieter ?] ?].
    destruct (Option_Bool req silentOptionName) as [[silent ?] ?].
    destruct (quiet || quieter || silent); [done|].
    destruct (Option_Bool req progressOptionName) as [[progress fnd] ?].
    by destruct sizeFile as [[|]|].
  - destruct (silenced || found); [by repeat split|].
    repeat split. intros name Hne. cbn.
    destruct (String.eqb_spec name progressOptionName); [done|done].
Qed.

(** X22. [PreRun] and [Run] together: the walk [ipfs add] starts after
    [PreRun] reports progress unless [quiet], [quieter] or [silent] is
    given; when [progress] is given, its value decides. *)
Theorem AddCmd_progress_by_default req sizeFile re a h :
  CmdAdd a h ∈ AddCmd_Run (AddCmd_PreRun req sizeFile).1.1 re →
  let silenced := (Option_Bool req quietOptionName).1.1
                  || (Option_Bool req quieterOptionName).1.1
                  || (Option_Bool req silentOptionName).1.1 in
  let found := (Option_Bool req progressOptionName).1.2 in
  Progress a = if silenced || found
               then (Option_Bool req progressOptionName).1.1 else true.
Proof.
  intros Hin silenced found. rewrite PreRun_request in Hin.
  fold silenced found in Hin.
  apply AddCmd_Run_adder in Hin as (_ & _ & -> & _). cbn [Progress].
  by destruct (silenced || found).
Qed.

(** ** After the run: the progress bar *)

Lemma stdout_app (evs1 evs2 : list bar_event) :
  stdout (evs1 ++ evs2) = stdout evs1 ++ stdout evs2.
Proof.
  induction evs1 as [|ev evs1 IH]; [done|]. destruct ev; cbn; by rewrite ?IH.
Qed.

Lemma LOOP_stdout quiet quieter progress cre sel st :
  stdout (progressBar_LOOP quiet quieter progress cre sel st).1.1
  = if quieter then
      if closed sel then [last_hash (lastHash st) (hashed sel) +:+ LF] else []
    else added_line quiet <$> hashed sel.
Proof.
  revert st. induction sel as [|[output| | |size|err] sel IH]; intros st.
  - cbn. by destruct quieter.
  - cbn [progressBar_LOOP hashed closed].
    destruct (0 <? String.length (Hash output))%nat.
    + destruct quieter eqn:Hq.
      * by rewrite IH.
      * specialize (IH {| lastFile := lastFile st; lastHash := Hash output;
                          totalProgress := totalProgress st;
                          prevFiles := prevFiles st; lastBytes := lastBytes st;
                          bar_current := bar_current st |}).
        destruct (progressBar_LOOP quiet false progress cre sel _) as [[evs st'] e].
        cbn [fst] in *. rewrite !stdout_app, IH. unfold added_line.
        by destruct progress, quiet.
    + destruct progress; cbn [negb app].
      * match goal with |- context [progressBar_LOOP _ _ _ _ sel ?st1] =>
          specialize (IH st1); destruct (progressBar_LOOP quiet quieter true cre sel st1)
            as [[evs st'] e] end.
        cbn [fst stdout] in *. by rewrite IH.
      * by rewrite IH.
  - cbn. by destruct quieter.
  - by destruct quieter.
  - cbn [progressBar_LOOP hashed closed]. specialize (IH st).
    destruct (progressBar_LOOP quiet quieter progress cre sel st) as [[evs st'] e].
    cbn [fst] in *. rewrite stdout_app, IH. by destruct progress.
  - cbn [progressBar_LOOP fst]. destruct (block_cmd.cli_SetError _ _ _);
      by destruct quieter.
Qed.

(** X23. What [ipfs add] prints on standard output depends on the outputs
    with a hash only.  With [quieter] it is one line, the last hash, once
    the stream is closed, and nothing at all when the reading ends in any
    other way; with [quiet] one line per output, the hash; otherwise one
    line "added <hash> <name>" per output.  Progress reports, sizes and
    the [progress] option change none of it. *)
Theorem progressBar_stdout req cre sel :
  let quieter := (Option_Bool req quieterOptionName).1.1 in
  let quiet := (Option_Bool req quietOptionName).1.1 || quieter in
  stdout (progressBar req cre sel).1.1
  = if quieter then
      if closed sel then [last_hash "" (hashed sel) +:+ LF] else []
    else added_line quiet <$> hashed sel.
Proof.
  intros quieter quiet. subst quieter quiet. unfold progressBar.
  destruct (Option_Bool req quietOptionName) as [[quiet ?] ?].
  destruct (Option_Bool req quieterOptionName) as [[quieter ?] ?].
  destruct (Option_Bool req progressOptionName) as [[progress ?] ?].
  cbn [fst snd].
  pose proof (LOOP_stdout (quiet || quieter) quieter progress cre sel bar_init) as Hl.
  destruct (progressBar_LOOP _ _ _ _ _ _) as [[evs st] e]. cbn [fst] in *.
  rewrite !stdout_app, Hl.
  replace (stdout (if progress then [BarStart] else [])) with (@nil string)
    by (by destruct progress).
  replace (stdout match e with Returns => [CloseWait] | _ => [] end)
    with (@nil string) by (by destruct e).
  by rewrite app_nil_r.
Qed.

Lemma int64_add_r (x y : Z) : int64 (x + int64 y) = int64 (x + y).
Proof.
  unfold int64. f_equal.
  replace (x + ((y + 2 ^ 63) `mod` 2 ^ 64 - 2 ^ 63) + 2 ^ 63)%Z
    with (x + (y + 2 ^ 63) `mod` 2 ^ 64)%Z by lia.
  rewrite Z.add_mod_idemp_r by done. f_equal. lia.
Qed.

Lemma int64_idem (x : Z) : int64 (int64 x) = int64 x.
Proof. by rewrite <- (Z.add_0_l (int64 x)), int64_add_r. Qed.

Lemma int64_step (total target : Z) :
  int64 (total + int64 (int64 target - total)) = int64 target.
Proof.
  rewrite int64_add_r.
  replace (total + (int64 target - total))%Z with (int64 target) by lia.
  apply int64_idem.
Qed.

Lemma bar_position_app (evs1 evs2 : list bar_event) (current : Z) :
  bar_position (evs1 ++ evs2) current
  = bar_position evs2 (bar_position evs1 current).
Proof.
  revert current. induction evs1 as [|ev evs1 IH]; intros current; [done|].
  destruct ev; cbn; by rewrite ?IH.
Qed.

Lemma LOOP_in_step quiet quieter progress cre sel st :
  bar_in_step st →
  let '(evs, st', _) := progressBar_LOOP quiet quieter progress cre sel st in
  bar_position evs (bar_current st) = bar_current st' ∧ bar_in_step st'.
Proof.
  revert st. induction sel as [|[output| | |size|err] sel IH]; intros st Hst.
  - done.
  - cbn [progressBar_LOOP].
    destruct (0 <? String.length (Hash output))%nat.
    + match goal with |- context [progressBar_LOOP _ _ _ _ sel ?st1] =>
        specialize (IH st1 Hst) end.
      destruct quieter; [done|].
      destruct (progressBar_LOOP quiet false progress cre sel _) as [[evs st'] e].
      rewrite !bar_position_app.
      replace (bar_position (if progress then [Stderr clear_line] else [])
                 (bar_current st)) with (bar_current st) by (by destruct progress).
      destruct quiet; cbn [bar_position]; by destruct progress.
    + destruct progress; cbn [negb]; [|by apply IH].
      match goal with |- context [progressBar_LOOP _ _ _ _ sel ?st1] =>
        specialize (IH st1) end.
      destruct (progressBar_LOOP quiet quieter true cre sel _) as [[evs st'] e].
      cbn [bar_position]. apply IH. destruct Hst as [Hcur Htot].
      split; [done|]. cbn. rewrite Hcur. apply int64_step.
  - done.
  - cbn [progressBar_LOOP]. by destruct quieter.
  - cbn [progressBar_LOOP]. specialize (IH st Hst).
    destruct (progressBar_LOOP quiet quieter progress cre sel st) as [[evs st'] e].
    rewrite bar_position_app. by destruct progress.
  - cbn [progressBar_LOOP]. by destruct (block_cmd.cli_SetError _ _ _).
Qed.

(** X24. However the outputs, sizes and the end of the stream arrive, the
    progress bar stands where the counters of [progressBar] say: at the
    bytes of the files done with plus the bytes of the file being added,
    as an [int64]; nothing is counted twice and nothing is lost. *)
Theorem progressBar_bar_in_step req cre sel :
  let '(evs, st, _) := progressBar req cre sel in
  bar_position evs 0 = int64 (prevFiles st + lastBytes st) ∧
  totalProgress st = int64 (prevFiles st + lastBytes st).
Proof.
  unfold progressBar.
  destruct (Option_Bool req quietOptionName) as [[quiet ?] ?].
  destruct (Option_Bool req quieterOptionName) as [[quieter ?] ?].
  destruct (Option_Bool req progressOptionName) as [[progress ?] ?].
  pose proof (LOOP_in_step (quiet || quieter) quieter progress cre sel bar_init) as Hl.
  destruct (progressBar_LOOP _ _ _ _ _ _) as [[evs st] e].
  destruct Hl as [Hpos [Hcur Htot]]; [done|].
  rewrite !bar_position_app.
  replace (bar_position (if progress then [BarStart] else []) 0) with 0%Z
    by (by destruct progress).
  replace (bar_position match e with Returns => [CloseWait] | _ => [] end
             (bar_position evs 0)) with (bar_position evs 0) by (by destruct e).
  cbn in Hpos. by rewrite Hpos, Hcur.
Qed.

Lemma LOOP_one_file quiet quieter cre sel st name :
  one_file name (lastBytes st) (reports sel) →
  lastFile st = "" ∨ lastFile st = name →
  prevFiles st = 0%Z →
  let '(_, st', _) := progressBar_LOOP quiet quieter true cre sel st in
  prevFiles st' = 0%Z ∧ lastBytes st' = last_bytes (lastBytes st) (reports sel).
Proof.
  revert st. induction sel as [|[output| | |size|err] sel IH]; intros st Hone Hfile Hprev.
  - done.
  - cbn [progressBar_LOOP reports] in *.
    destruct (0 <? String.length (Hash output))%nat; cbn [app negb] in *.
    + match goal with |- context [progressBar_LOOP _ _ _ _ sel ?st1] =>
        specialize (IH st1 Hone Hfile Hprev) end.
      destruct quieter; [done|].
      by destruct (progressBar_LOOP quiet false true cre sel _) as [[evs st'] e].
    + destruct Hone as (Hname & Hle & Hone).
      assert ((if (String.length (lastFile st) =? 0)%nat then Name output
               else lastFile st) = name) as Hlast.
      { destruct Hfile as [-> | ->]; [done|]. by destruct (_ =? _)%nat. }
      rewrite Hlast, Hname, String.eqb_refl.
      assert ((Bytes output <? lastBytes st)%Z = false) as -> by lia.
      cbn [negb orb].
      match goal with |- context [progressBar_LOOP _ _ _ _ sel ?st1] =>
        specialize (IH st1) end.
      destruct (progressBar_LOOP quiet quieter true cre sel _) as [[evs st'] e].
      apply IH; [done|by right|done].
  - done.
  - cbn [progressBar_LOOP]. by destruct quieter.
  - cbn [progressBar_LOOP reports] in *. specialize (IH st Hone Hfile Hprev).
    by destruct (progressBar_LOOP quiet quieter true cre sel st) as [[evs st'] e].
  - done.
Qed.

(** X25. With [progress] on and reports that are all for one file and
    never go down, the bar ends at the bytes of the last report (as an
    [int64]): the reports are taken as the state of one file, not added
    up. *)
Theorem progressBar_one_file req cre sel name :
  (Option_Bool req progressOptionName).1.1 = true →
  one_file name 0 (reports sel) →
  bar_position (progressBar req cre sel).1.1 0 = int64 (last_bytes 0 (reports sel)).
Proof.
  intros Hprog Hone. unfold progressBar.
  destruct (Option_Bool req quietOptionName) as [[quiet ?] ?].
  destruct (Option_Bool req quieterOptionName) as [[quieter ?] ?].
  destruct (Option_Bool req progressOptionName) as [[progress ?] ?].
  cbn in Hprog. subst progress.
  pose proof (LOOP_in_step (quiet || quieter) quieter true cre sel bar_init) as Hl.
  pose proof (LOOP_one_file (quiet || quieter) quieter cre sel bar_init name) as Hf.
  destruct (progressBar_LOOP _ _ _ _ _ _) as [[evs st] e].
  destruct Hl as [Hpos [Hcur Htot]]; [done|].
  destruct Hf as [Hprev Hlast]; [done|by left|done|].
  cbn [fst]. rewrite !bar_position_app. cbn [bar_position].
  replace (bar_position match e with Returns => [CloseWait] | _ => [] end
             (bar_position evs 0)) with (bar_position evs 0) by (by destruct e).
  cbn in Hpos, Hlast. by rewrite Hpos, Hcur, Htot, Hprev, Hlast.
Qed.

End add_facts.

(** * The further facts at work on a node *)

Section more_on_a_node.
Import commands.
#[local] Existing Instance mem.extern.
#[local] Existing Instance mem.cmd_extern.
#[local] Existing Instance mem_cli.cat_extern.

Lemma RmBlocks_rejections_first_witness :
  let t := filestore.events
             (filestore.RmBlocks mem.fs mem.lock
                (mem.pinner {[ "Qa" := "pinned: recursive" ]})
                ["Qa"; "Qb"; "Qc"] (mem.opts "/filestore" false false))
             (mem.node ["Qa"; "Qb"] []) in
  filestore.sent t
  = [mem_cli.removed "Qa" "pinned: recursive"]
    ++ omap (λ d, d.2) (filestore.per_delete t).
Proof.
  exact (RmBlocks_rejections_first mem.fs mem.lock
           (mem.pinner {[ "Qa" := "pinned: recursive" ]})
           ["Qa"; "Qb"; "Qc"] (mem.opts "/filestore" false false) 1%positive
           ((mem.pinner {[ "Qa" := "pinned: recursive" ]}).(filestore.CheckIfPinned)
              ["Qa"; "Qb"; "Qc"]).1
           (mem.node ["Qa"; "Qb"] []) eq_refl eq_refl).
Defined.

Lemma FilterPinned_splits_witness :
  let '(s', r) :=
    filestore.FilterPinned mem.fs (mem.pinner {[ "Qa" := "pinned: recursive" ]})
      {| filestore.chan_cap := 2 |} ["Qa"; "Qb"] 1%positive
      {| filestore.world := mem.node ["Qa"; "Qb"] []; filestore.trace := [] |} in
  ∃ stillOkay,
    r = filestore.Returned stillOkay ∧
    filestore.world s' = mem.node ["Qa"; "Qb"] [] ∧
    filestore.deleted (filestore.trace s') = [] ∧
    stillOkay `sublist_of` ["Qa"; "Qb"] ∧
    length stillOkay + length (filestore.sent (filestore.trace s')) = 2.
Proof.
  exact (FilterPinned_splits mem.fs (mem.pinner {[ "Qa" := "pinned: recursive" ]})
           {| filestore.chan_cap := 2 |} ["Qa"; "Qb"] 1%positive
           ((mem.pinner {[ "Qa" := "pinned: recursive" ]}).(filestore.CheckIfPinned)
              ["Qa"; "Qb"]).1
           {| filestore.world := mem.node ["Qa"; "Qb"] []; filestore.trace := [] |}
           (or_introl eq_refl) eq_refl).
Defined.

Lemma FilterPinned_unknown_backend_witness :
  let s := {| filestore.world := mem.node ["Qa"; "Qb"] []; filestore.trace := [] |} in
  filestore.FilterPinned mem.fs (mem.pinner {[ "Qa" := "pinned: recursive" ]})
    {| filestore.chan_cap := 2 |} ["Qb"; "Qa"] 3%positive s
  = (s, filestore.Panicked "invalid pointer for foundIn").
Proof.
  intros s.
  assert ((1 : ref) ≠ 3)%positive as H13 by discriminate.
  assert ((2 : ref) ≠ 3)%positive as H23 by discriminate.
  refine (proj2 (FilterPinned_unknown_backend mem.fs
           (mem.pinner {[ "Qa" := "pinned: recursive" ]})
           {| filestore.chan_cap := 2 |} ["Qb"; "Qa"] 3%positive
           ((mem.pinner {[ "Qa" := "pinned: recursive" ]}).(filestore.CheckIfPinned)
              ["Qb"; "Qa"]).1 s H13 H23 eq_refl)
           (@filestore.Build_Pinned mem.extern "Qa" true "pinned: recursive")
           _ eq_refl).
  right. left.
Defined.

Lemma RmBlocks_sends_fit_witness :
  filestore.sends_under_lock false
    (filestore.events
       (filestore.RmBlocks mem.fs mem.lock
          (mem.pinner {[ "Qa" := "pinned: recursive" ]})
          ["Qa"; "Qb"; "Qc"] (mem.opts "/filestore" false false))
       (mem.node ["Qa"; "Qb"] []))
  ≤ 3.
Proof.
  refine (RmBlocks_sends_fit mem.fs mem.lock
           (mem.pinner {[ "Qa" := "pinned: recursive" ]})
           ["Qa"; "Qb"; "Qc"] (mem.opts "/filestore" false false)
           ((mem.pinner {[ "Qa" := "pinned: recursive" ]}).(filestore.CheckIfPinned)
              ["Qa"; "Qb"; "Qc"]).1 None
           (mem.node ["Qa"; "Qb"] []) eq_refl _ _).
  - intros _. cbn. lia.
  - intros Hne. by destruct Hne.
Defined.

Lemma blockRm_PostRun_reports_witness :
  block_cmd.blockRm_PostRun mem_cli.emitter
    (mem_cli.response [mem_cli.removed "Qa" ""; mem_cli.removed "Qb" "pinned"]
       block_cmd.io_EOF)
  = [block_cmd.Stdout ("removed Qa" +:+ LF);
     block_cmd.Stderr ("cannot remove Qb: pinned" +:+ LF);
     block_cmd.CliSetError (inl "some blocks not removed") ErrNormal;
     block_cmd.CliClose].
Proof.
  refine (blockRm_PostRun_reports mem_cli.emitter
            (mem_cli.response [mem_cli.removed "Qa" ""; mem_cli.removed "Qb" "pinned"]
               block_cmd.io_EOF)
            [mem_cli.removed "Qa" ""; mem_cli.removed "Qb" "pinned"]
            eq_refl _ eq_refl).
  repeat constructor.
Defined.

Lemma blockRm_PostRun_aborted_witness :
  block_cmd.blockRm_PostRun mem_cli.emitter
    (mem_cli.response [mem_cli.removed "Qa" ""; mem_cli.removed "" "pin check failed";
                       mem_cli.removed "Qb" ""] block_cmd.io_EOF)
  = [block_cmd.Stdout ("removed Qa" +:+ LF);
     block_cmd.Stderr ("aborted: pin check failed" +:+ LF);
     block_cmd.CliSetError (inl "some blocks not removed") ErrNormal;
     block_cmd.CliClose].
Proof.
  refine (blockRm_PostRun_aborted mem_cli.emitter
            (mem_cli.response [mem_cli.removed "Qa" "";
                               mem_cli.removed "" "pin check failed";
                               mem_cli.removed "Qb" ""] block_cmd.io_EOF)
            [mem_cli.removed "Qa" ""] (mem_cli.removed "" "pin check failed")
            [block_cmd.is_RemovedBlock (mem_cli.removed "Qb" "")]
            eq_refl _ eq_refl).
  repeat constructor.
Defined.

Lemma blockRm_PostRun_stream_error_witness :
  block_cmd.blockRm_PostRun mem_cli.emitter
    (mem_cli.response [mem_cli.removed "Qb" "pinned"] block_cmd.cmds_ErrRcvdError)
  = [block_cmd.Stderr ("cannot remove Qb: pinned" +:+ LF);
     block_cmd.CliSetError (inl "connection lost") ErrNormal;
     block_cmd.CliClose].
Proof.
  refine (blockRm_PostRun_stream_error mem_cli.emitter
            (mem_cli.response [mem_cli.removed "Qb" "pinned"]
               block_cmd.cmds_ErrRcvdError)
            [mem_cli.removed "Qb" "pinned"] eq_refl _ _).
  - repeat constructor.
  - discriminate.
Defined.

Lemma RmBlocks_pin_check_failure_aborts_cli_witness :
  block_cmd.blockRm_PostRun mem_cli.emitter
    (mem_cli.response
       (filestore.sent
          (filestore.events
             (filestore.RmBlocks mem.fs mem.lock
                (mem.failing_pinner (errorString "pin store unreadable"))
                ["Qa"] (mem.opts "/blocks" false false))
             (mem.node ["Qa"] [])))
       block_cmd.io_EOF)
  = [block_cmd.Stderr ("aborted: pin check failed: pin store unreadable" +:+ LF);
     block_cmd.CliSetError (inl "some blocks not removed") ErrNormal;
     block_cmd.CliClose].
Proof.
  exact (RmBlocks_pin_check_failure_aborts_cli mem.fs mem.lock
           (mem.failing_pinner (errorString "pin store unreadable"))
           ["Qa"] (mem.opts "/blocks" false false) 2%positive []
           (errorString "pin store unreadable") (mem.node ["Qa"] [])
           mem_cli.emitter
           (mem_cli.response
              (filestore.sent
                 (filestore.events
                    (filestore.RmBlocks mem.fs mem.lock
                       (mem.failing_pinner (errorString "pin store unreadable"))
                       ["Qa"] (mem.opts "/blocks" false false))
                    (mem.node ["Qa"] [])))
              block_cmd.io_EOF)
           eq_refl eq_refl eq_refl).
Defined.

Lemma cat_all_paths_open_witness :
  cat_cmd.cat mem.ipfs_node ["/ipfs/QmA"; "/ipfs/QmBcd"]
  = ([cat_cmd.CatOpen "/ipfs/QmA"; cat_cmd.CatOpen "/ipfs/QmBcd"],
     ([9%Z; 11%Z], 20%Z, None)).
Proof.
  refine (cat_all_paths_open mem.ipfs_node ["/ipfs/QmA"; "/ipfs/QmBcd"]
            [9%Z; 11%Z] _).
  repeat constructor.
Defined.

Lemma cat_first_failure_witness :
  cat_cmd.cat mem.ipfs_node ["/ipfs/QmA"; "QmBcd"; "/ipfs/QmC"]
  = ([cat_cmd.CatOpen "/ipfs/QmA"; cat_cmd.CatOpen "QmBcd"],
     ([], 0%Z, Some (errorString "invalid ipfs ref path"))).
Proof.
  refine (cat_first_failure mem.ipfs_node ["/ipfs/QmA"] "QmBcd" ["/ipfs/QmC"]
            [9%Z] (errorString "invalid ipfs ref path") _ eq_refl).
  repeat constructor.
Defined.

Lemma AddCmd_nocopy_filestore_disabled_witness :
  AddCmd_Run (mem_cli.request_no_filestore [("nocopy", true)]) mem.emitter
  = [CmdSetError (errorString "filestore is not enabled, see https://git.io/vy4XN")
       ErrClient].
Proof.
  exact (AddCmd_nocopy_filestore_disabled
           (mem_cli.request_no_filestore [("nocopy", true)]) mem.emitter
           _ _ true None eq_refl eq_refl eq_refl eq_refl).
Defined.

Lemma AddCmd_progress_by_default_witness :
  Progress {| Chunker := ""; Progress := true; Hidden := false; Trickle := false;
              Wrap := false; Pin := true; Silent := false; RawLeaves := false;
              NoCopy := false |} = true.
Proof.
  refine (AddCmd_progress_by_default (mem.request [] []) None mem.emitter
            {| Chunker := ""; Progress := true; Hidden := false; Trickle := false;
               Wrap := false; Pin := true; Silent := false; RawLeaves := false;
               NoCopy := false |} false _).
  left.
Defined.

Lemma progressBar_one_file_witness :
  add_cli.bar_position
    (add_cli.progressBar (mem.request [] [("progress", true)]) mem_cli.emitter
       [add_cli.SelOut {| add_cli.Name := "a.txt"; add_cli.Hash := ""; add_cli.Bytes := 10 |};
        add_cli.SelSize 25;
        add_cli.SelOut {| add_cli.Name := "a.txt"; add_cli.Hash := ""; add_cli.Bytes := 25 |};
        add_cli.SelOut {| add_cli.Name := "a.txt"; add_cli.Hash := "QmA"; add_cli.Bytes := 0 |};
        add_cli.SelClosed]).1.1 0
  = 25%Z.
Proof.
  refine (progressBar_one_file (mem.request [] [("progress", true)]) mem_cli.emitter
            _ "a.txt" eq_refl _).
  cbn. repeat split; lia.
Defined.

Lemma blockRm_all_decodable_witness :
  ∃ cids opts rest,
    Forall2 (λ h c, cid_Decode h = inl c) ["QmGood"; "QmAlso"] cids ∧
    filestore.Quiet opts = false ∧
    filestore.Force opts = true ∧
    (blockRmCmd_Run (mem.request ["QmGood"; "QmAlso"] [("force", true)])
       mem.emitter (mem.node [] ["QmGood"])).2
    = CmdRmBlocks cids opts :: rest.
Proof.
  refine (blockRm_all_decodable (mem.request ["QmGood"; "QmAlso"] [("force", true)])
            mem.emitter (mem.node [] ["QmGood"]) mem.ipfs_node eq_refl _).
  repeat constructor; by eexists.
Defined.

End more_on_a_node.
